(** * drone-s3: the upload plugin ([plugin.go])

    A shallow embedding of [matches], [contentType] and [Plugin.Exec], and the
    properties of the matcher, the content-type resolver and the upload loop.

    The plugin is glue over the file system, the glob library, the MIME table
    and the S3 client.  Those collaborators are not part of the program: they
    are gathered in an environment [Env] whose answers may depend on
    everything the run did before (the trace of calls), and every theorem
    holds for every environment.  The run itself is a state-and-error monad
    over the configuration the receiver points to, the trace of calls and the
    stack of deferred closes. *)

From stdpp Require Import base strings list gmap.
From Stdlib Require Import Strings.Ascii Strings.Byte.

(** ** Values *)

(** Go's [error]. *)
Inductive error := MkError (msg : string).

(** A Go pair [(value, err)]: the value when [err == nil], the error otherwise. *)
Inductive result (A : Type) := Ok (a : A) | Err (e : error).
Arguments Ok {A} a.
Arguments Err {A} e.

(** [type Plugin struct], field by field. *)
Record Plugin := {
  Endpoint : string;
  Key : string;
  Secret : string;
  Bucket : string;
  Region : string;
  Access : string;
  Source : string;
  Target : string;
  Recursive : bool;
  Exclude : list string;
  PathStyle : bool;
  DryRun : bool;
  Compress : bool
}.

(** What [os.Stat] returns; the run only asks [IsDir]. *)
Record FileInfo := { IsDir : bool }.

(** An open [*os.File]: the descriptor and the name it was opened under. *)
Record File := { Fd : nat; Name : string }.

(** The [Body] of a request: the open file itself (streamed by the client) or
    a [bytes.Reader] over a buffer held in memory. *)
Inductive ReadSeeker :=
| FileReader (f : File)
| BytesReader (b : list byte).

Module aws.
(** The fields of [aws.Config] the plugin fills in. *)
Record Config := {
  Credentials : string * string * string;
  Region : string;
  Endpoint : string;
  DisableSSL : bool;
  S3ForcePathStyle : bool
}.
End aws.

Module s3.
(** The fields of [s3.PutObjectInput] the plugin fills in; a field left out
    of the composite literal is [nil]. *)
Record PutObjectInput := {
  Bucket : string;
  Key : string;
  ACL : string;
  ContentType : string;
  ContentEncoding : option string;
  Body : option ReadSeeker
}.
End s3.

(** ** Calls that leave the program *)

Inductive Level := Info | Error.

Inductive LogValue :=
| LStr (s : string)
| LErr (e : error).

Inductive Event :=
| EvLog (lvl : Level) (fields : list (string * LogValue)) (msg : string)
| EvGlob (pattern : string)
| EvStat (path : string)
| EvOpen (path : string)
| EvCopy (f : File)
| EvPutObject (client : aws.Config) (input : s3.PutObjectInput)
| EvClose (f : File).

(** The collaborators.  Each answer is a function of the calls made so far, so
    a file may vanish between [Stat] and [Open] and a write may fail the second
    time it is tried.  [io_Copy] is [io.Copy(gw, f)]: the bytes read from [f]
    up to end of file, or the error that stopped the copy.  [gzip_encode] is
    what a [gzip.Writer] over a memory buffer holds once it is closed. *)
Record Env := {
  zglob_Glob : list Event -> string -> result (list string);
  os_Stat : list Event -> string -> result FileInfo;
  os_Open : list Event -> string -> result File;
  io_Copy : list Event -> File -> result (list byte);
  s3_PutObject : list Event -> aws.Config -> s3.PutObjectInput -> option error;
  gzip_encode : list byte -> list byte;
  mime_TypeByExtension : string -> string;
  filepath_Join : string -> string -> string
}.

(** ** The run monad *)

(** [plugin] is the record behind the receiver [p *Plugin]; [deferred] is the
    stack of [defer f.Close()] calls, most recent first. *)
Record State := {
  plugin : Plugin;
  trace : list Event;
  deferred : list File
}.

Definition M (A : Type) : Type := State -> State * result A.

#[export] Instance M_ret : MRet M := fun A a s => (s, Ok a).

#[export] Instance M_bind : MBind M := fun A B k m s =>
  match m s with
  | (s', Ok a) => k a s'
  | (s', Err e) => (s', Err e)
  end.

(** [return err] out of the function being run. *)
Definition throw {A} (e : error) : M A := fun s => (s, Err e).

(** A call of a Go function that returns [(value, err)]. *)
Definition call {A} (m : M A) : M (result A) :=
  fun s => let (s', r) := m s in (s', Ok r).

(** A read of [p.<field>]. *)
Definition field {A} (f : Plugin -> A) : M A := fun s => (s, Ok (f (plugin s))).

Definition record (e : Event) (s : State) : State :=
  {| plugin := plugin s; trace := trace s ++ [e]; deferred := deferred s |}.

Definition emit (e : Event) : M unit := fun s => (record e s, Ok tt).

(** A call into the environment: the answer is taken on the trace before the
    call, and the call is appended to it. *)
Definition ask {A} (e : Event) (answer : list Event -> A) : M A :=
  fun s => (record e s, Ok (answer (trace s))).

Definition defer_Close (f : File) : M unit :=
  fun s => ({| plugin := plugin s; trace := trace s; deferred := f :: deferred s |}, Ok tt).

(** The deferred calls run when the function returns, last deferred first,
    whatever it returns. *)
Definition with_defers {A} (body : M A) : M A :=
  fun s =>
    let (s', r) := body s in
    ({| plugin := plugin s'; trace := trace s' ++ (EvClose <$> deferred s'); deferred := [] |}, r).

(** [for _, x := range l { body }]; an error returned by the body leaves the loop. *)
Fixpoint for_range {A} (l : list A) (body : A -> M unit) : M unit :=
  match l with
  | [] => mret tt
  | x :: l' => body x;; for_range l' body
  end.

(** ** path/filepath.Ext

    The scan of Go's [filepath.Ext] (Unix): from the last byte down to the
    last separator, the suffix starting at the first dot met.  [i] counts the
    bytes still to look at, so the byte examined is [path[i-1]]. *)
Fixpoint Ext_scan (path : string) (i : nat) : string :=
  match i with
  | 0 => ""
  | S j =>
      match String.get j path with
      | Some c =>
          if Ascii.eqb c "/"%char then ""
          else if Ascii.eqb c "."%char then String.substring j (String.length path - j) path
          else Ext_scan path j
      | None => ""
      end
  end.

Definition filepath_Ext (path : string) : string := Ext_scan path (String.length path).

Section Program.

Variable W : Env.

(** ** The primitives, as the program calls them *)

Definition Glob (pattern : string) : M (result (list string)) :=
  ask (EvGlob pattern) (fun tr => zglob_Glob W tr pattern).

Definition Stat (path : string) : M (result FileInfo) :=
  ask (EvStat path) (fun tr => os_Stat W tr path).

Definition Open (path : string) : M (result File) :=
  ask (EvOpen path) (fun tr => os_Open W tr path).

Definition Copy (f : File) : M (result (list byte)) :=
  ask (EvCopy f) (fun tr => io_Copy W tr f).

Definition PutObject (client : aws.Config) (input : s3.PutObjectInput) : M (option error) :=
  ask (EvPutObject client input) (fun tr => s3_PutObject W tr client input).

Definition Close (f : File) : M unit := emit (EvClose f).

Definition log (lvl : Level) (fields : list (string * LogValue)) (msg : string) : M unit :=
  emit (EvLog lvl fields msg).

(** ** matches *)

(** [for _, match := range excludes { excludem[match] = true }] *)
Definition mark_excluded (excludem : gmap string bool) (excludes : list string)
  : gmap string bool :=
  foldl (fun m match_ => <[match_ := true]> m) excludem excludes.

(** [for _, pattern := range exclude { ... }] *)
Fixpoint exclude_loop (exclude : list string) (excludem : gmap string bool)
  : M (gmap string bool) :=
  match exclude with
  | [] => mret excludem
  | pattern :: rest =>
      r ← Glob pattern;
      match r with
      | Err err => throw err
      | Ok excludes => exclude_loop rest (mark_excluded excludem excludes)
      end
  end.

(** [for _, include := range matches { ... included = append(included, include) }] *)
Definition include_loop (excludem : gmap string bool) (matches : list string)
  : list string :=
  foldl (fun included include =>
           match excludem !! include with
           | Some _ => included
           | None => included ++ [include]
           end) [] matches.

Definition matches (include : string) (exclude : list string) : M (list string) :=
  r ← Glob include;
  match r with
  | Err err => throw err
  | Ok matches =>
      if decide (length exclude = 0) then mret matches
      else
        excludem ← exclude_loop exclude ∅;
        mret (include_loop excludem matches)
  end.

(** ** contentType *)

Definition contentType (path : string) : string :=
  let ext := filepath_Ext path in
  let typ := mime_TypeByExtension W ext in
  if decide (typ = "") then "application/octet-stream" else typ.

(** ** Plugin.Exec *)

(** Lines 113-116: the object key of a match. *)
Definition target_key (p_Target match_ : string) : string :=
  let target := filepath_Join W p_Target match_ in
  if negb (String.prefix "/" target) then "/" +:+ target else target.

(** The client built at the top of [Exec]. *)
Definition new_client (p : Plugin) : aws.Config :=
  {| aws.Credentials := (Key p, Secret p, "");
     aws.Region := Region p;
     aws.Endpoint := Endpoint p;
     aws.DisableSSL := String.prefix "http://" (Endpoint p);
     aws.S3ForcePathStyle := PathStyle p |}.

Definition set_gzip_body (input : s3.PutObjectInput) (b : list byte) : s3.PutObjectInput :=
  {| s3.Bucket := s3.Bucket input; s3.Key := s3.Key input; s3.ACL := s3.ACL input;
     s3.ContentType := s3.ContentType input;
     s3.ContentEncoding := Some "gzip";
     s3.Body := Some (BytesReader b) |}.

Definition set_file_body (input : s3.PutObjectInput) (f : File) : s3.PutObjectInput :=
  {| s3.Bucket := s3.Bucket input; s3.Key := s3.Key input; s3.ACL := s3.ACL input;
     s3.ContentType := s3.ContentType input;
     s3.ContentEncoding := s3.ContentEncoding input;
     s3.Body := Some (FileReader f) |}.

(** The body of the loop over the matches; [mret tt] is [continue] or the
    end of the iteration, [throw err] is [return err]. *)
Definition upload (client : aws.Config) (match_ : string) : M unit :=
  st ← Stat match_;
  match st with
  | Err _ => mret tt
  | Ok stat =>
      if IsDir stat then mret tt
      else
        p_Target ← field Target;
        let target := target_key p_Target match_ in
        let content := contentType match_ in
        p_Bucket ← field Bucket;
        log Info [("name", LStr match_); ("bucket", LStr p_Bucket);
                  ("target", LStr target); ("content-type", LStr content)]
            "Uploading file";;
        p_DryRun ← field DryRun;
        if (p_DryRun : bool) then mret tt
        else
          r ← Open match_;
          match r with
          | Err err =>
              log Error [("error", LErr err); ("file", LStr match_)] "Problem opening file";;
              throw err
          | Ok f =>
              defer_Close f;;
              p_Bucket ← field Bucket;
              p_Access ← field Access;
              let input :=
                {| s3.Bucket := p_Bucket; s3.Key := target; s3.ACL := p_Access;
                   s3.ContentType := content;
                   s3.ContentEncoding := None; s3.Body := None |} in
              p_Compress ← field Compress;
              input ← (if (p_Compress : bool) then
                         c ← Copy f;
                         match c with
                         | Err err =>
                             log Error [("error", LErr err); ("file", LStr match_)]
                                 "Problem gzipping file";;
                             throw err
                         | Ok data => mret (set_gzip_body input (gzip_encode W data))
                         end
                       else mret (set_file_body input f));
              e ← PutObject client input;
              match e with
              | Some err =>
                  p_Bucket ← field Bucket;
                  log Error [("name", LStr match_); ("bucket", LStr p_Bucket);
                             ("target", LStr target); ("error", LErr err)]
                      "Could not upload file";;
                  throw err
              | None => Close f
              end
          end
  end.

Definition Exec_body : M unit :=
  client ← field new_client;
  p_Region ← field Region;
  p_Endpoint ← field Endpoint;
  p_Bucket ← field Bucket;
  log Info [("region", LStr p_Region); ("endpoint", LStr p_Endpoint);
            ("bucket", LStr p_Bucket)] "Attempting to upload";;
  p_Source ← field Source;
  p_Exclude ← field Exclude;
  r ← call (matches p_Source p_Exclude);
  match r with
  | Err err =>
      log Error [("error", LErr err)] "Could not match files";;
      throw err
  | Ok matches => for_range matches (upload client)
  end.

Definition Exec : M unit := with_defers Exec_body.

End Program.

(** ** Reading a run *)

(** The write requests of a trace, in the order they were issued. *)
Definition puts (tr : list Event) : list s3.PutObjectInput :=
  omap (fun e => match e with EvPutObject _ input => Some input | _ => None end) tr.

(** The paths a trace opened, in order. *)
Definition opens (tr : list Event) : list string :=
  omap (fun e => match e with EvOpen path => Some path | _ => None end) tr.

(** [Exec] run on a configuration, from an empty history. *)
Definition init (p : Plugin) : State := {| plugin := p; trace := []; deferred := [] |}.

Definition set_Recursive (b : bool) (p : Plugin) : Plugin :=
  {| Endpoint := Endpoint p; Key := Key p; Secret := Secret p; Bucket := Bucket p;
     Region := Region p; Access := Access p; Source := Source p; Target := Target p;
     Recursive := b; Exclude := Exclude p; PathStyle := PathStyle p;
     DryRun := DryRun p; Compress := Compress p |}.

Definition with_Recursive (b : bool) (s : State) : State :=
  {| plugin := set_Recursive b (plugin s); trace := trace s; deferred := deferred s |}.

(** A computation that never looks at [Recursive]. *)
Definition oblivious {A} (m : M A) : Prop :=
  forall b s, m (with_Recursive b s) = (with_Recursive b (m s).1, (m s).2).

(** A computation that leaves the configuration as it found it. *)
Definition keeps_plugin {A} (m : M A) : Prop :=
  forall s, plugin (m s).1 = plugin s.

(** The spec's words for the key: a slash in front of the joined path, a
    double slash at the front made single. *)
Definition single_leading_slash (s : string) : string :=
  match s with
  | String "/" (String "/" rest) => String "/" rest
  | _ => s
  end.

Section Reading.

Variable W : Env.

(** The set the exclude patterns expand to, each pattern globbed after the
    ones before it. *)
Fixpoint exclusion_set (exclude : list string) (tr : list Event) : result (gset string) :=
  match exclude with
  | [] => Ok ∅
  | pattern :: rest =>
      match zglob_Glob W tr pattern, exclusion_set rest (tr ++ [EvGlob pattern]) with
      | Ok excludes, Ok E => Ok (list_to_set excludes ∪ E)
      | Err err, _ => Err err
      | _, Err err => Err err
      end
  end.

(** The "Uploading file" line of a match. *)
Definition announce (p : Plugin) (match_ : string) : Event :=
  EvLog Info [("name", LStr match_); ("bucket", LStr (Bucket p));
              ("target", LStr (target_key W (Target p) match_));
              ("content-type", LStr (contentType W match_))]
        "Uploading file".

(** The request of a match before its body is set. *)
Definition request (p : Plugin) (match_ : string) : s3.PutObjectInput :=
  {| s3.Bucket := Bucket p; s3.Key := target_key W (Target p) match_;
     s3.ACL := Access p; s3.ContentType := contentType W match_;
     s3.ContentEncoding := None; s3.Body := None |}.

(** The state once a match was stat'ed and announced, which is where the
    file is opened. *)
Definition announced (s : State) (match_ : string) : State :=
  record (announce (plugin s) match_) (record (EvStat match_) s).

(** The state once the file of a match is open and its close deferred. *)
Definition opened (s : State) (match_ : string) (f : File) : State :=
  let s' := record (EvOpen match_) (announced s match_) in
  {| plugin := plugin s'; trace := trace s'; deferred := f :: deferred s' |}.

(** The iteration of a match goes as far as opening the file: the stat
    succeeds, the entry is not a directory and the run is not a dry run. *)
Definition reaches_open (s : State) (match_ : string) : Prop :=
  exists stat, os_Stat W (trace s) match_ = Ok stat
               /\ IsDir stat = false /\ DryRun (plugin s) = false.

(** The open, the compression or the write of a match fails with [err]. *)
Inductive step_fails (client : aws.Config) (s : State) (match_ : string) (err : error) : Prop :=
| open_fails :
    reaches_open s match_ ->
    os_Open W (trace (announced s match_)) match_ = Err err ->
    step_fails client s match_ err
| compression_fails f :
    reaches_open s match_ ->
    os_Open W (trace (announced s match_)) match_ = Ok f ->
    Compress (plugin s) = true ->
    io_Copy W (trace (opened s match_ f)) f = Err err ->
    step_fails client s match_ err
| compressed_write_fails f data :
    reaches_open s match_ ->
    os_Open W (trace (announced s match_)) match_ = Ok f ->
    Compress (plugin s) = true ->
    io_Copy W (trace (opened s match_ f)) f = Ok data ->
    s3_PutObject W (trace (opened s match_ f) ++ [EvCopy f]) client
      (set_gzip_body (request (plugin s) match_) (gzip_encode W data)) = Some err ->
    step_fails client s match_ err
| raw_write_fails f :
    reaches_open s match_ ->
    os_Open W (trace (announced s match_)) match_ = Ok f ->
    Compress (plugin s) = false ->
    s3_PutObject W (trace (opened s match_ f)) client
      (set_file_body (request (plugin s) match_) f) = Some err ->
    step_fails client s match_ err.

(** What a dry run leaves in the trace for a list of matches: a stat per
    match, and the announcement of every match that is a file. *)
Fixpoint dry_trace (p : Plugin) (matches : list string) (tr : list Event) : list Event :=
  match matches with
  | [] => tr
  | match_ :: rest =>
      match os_Stat W tr match_ with
      | Err _ => dry_trace p rest (tr ++ [EvStat match_])
      | Ok stat =>
          if IsDir stat then dry_trace p rest (tr ++ [EvStat match_])
          else dry_trace p rest ((tr ++ [EvStat match_]) ++ [announce p match_])
      end
  end.

(** The state in which [Exec] calls [matches]. *)
Definition started (s : State) : State :=
  record (EvLog Info [("region", LStr (Region (plugin s)));
                      ("endpoint", LStr (Endpoint (plugin s)));
                      ("bucket", LStr (Bucket (plugin s)))] "Attempting to upload") s.

(** How an iteration ends once the request is ready: the write is issued, and
    either it fails, which is logged and returned, or the file is closed. *)
Definition finish (client : aws.Config) (s : State) (match_ : string) (f : File)
    (input : s3.PutObjectInput) : State * result unit :=
  let s' := record (EvPutObject client input) s in
  match s3_PutObject W (trace s) client input with
  | Some err =>
      (record (EvLog Error [("name", LStr match_); ("bucket", LStr (Bucket (plugin s)));
                            ("target", LStr (s3.Key input)); ("error", LErr err)]
                 "Could not upload file") s', Err err)
  | None => (record (EvClose f) s', Ok tt)
  end.

(** The paths a trace stat'ed, in order. *)
Definition stats (tr : list Event) : list string :=
  omap (fun e => match e with EvStat path => Some path | _ => None end) tr.

(** [Exec], started in [s0], gets to the iteration of [match_] in state [s1]:
    [matches] returned a list with [match_] in it and the iterations before
    it went through. *)
Definition reaches (s0 : State) (match_ : string) (s1 : State) : Prop :=
  exists s pre post,
    matches W (Source (plugin s0)) (Exclude (plugin s0)) (started s0)
      = (s, Ok (pre ++ match_ :: post))
    /\ for_range pre (upload W (new_client (plugin s0))) s = (s1, Ok tt).

(** The state [Exec] returns in, its deferred closes run. *)
Definition returned (s : State) : State :=
  {| plugin := plugin s; trace := trace s ++ (EvClose <$> deferred s); deferred := [] |}.

End Reading.

(** ** A small world to run the program in *)

Module Fixture.

Definition no_such_file : error := MkError "stat dist/gone: no such file or directory".
Definition permission_denied : error := MkError "open dist/locked: permission denied".
Definition bad_pattern : error := MkError "syntax error in pattern".
Definition read_error : error := MkError "read dist/torn.css: input/output error".
Definition access_denied : error := MkError "AccessDenied: Access Denied".

Definition glob (tr : list Event) (pattern : string) : result (list string) :=
  if decide (pattern = "dist/*") then
    Ok ["dist/app.js"; "dist/app.js.map"; "dist/gone"; "dist/img"; "dist/locked"; "dist/z.css"]
  else if decide (pattern = "dist/*.map") then Ok ["dist/app.js.map"]
  else if decide (pattern = "dist/*.css") then Ok ["dist/torn.css"; "dist/z.css"]
  else if decide (pattern = "dist/[") then Err bad_pattern
  else Ok [].

Definition stat (tr : list Event) (path : string) : result FileInfo :=
  if decide (path = "dist/gone") then Err no_such_file
  else Ok {| IsDir := bool_decide (path = "dist/img") |}.

Definition open (tr : list Event) (path : string) : result File :=
  if decide (path = "dist/locked") then Err permission_denied
  else Ok {| Fd := 3 + length (opens tr); Name := path |}.

Definition copy (tr : list Event) (f : File) : result (list byte) :=
  if decide (Name f = "dist/torn.css") then Err read_error
  else Ok [x61; x62; x63]%byte.

Definition put (tr : list Event) (client : aws.Config) (input : s3.PutObjectInput)
  : option error :=
  if decide (s3.Bucket input = "readonly") then Some access_denied else None.

(** Stands in for the encoder: the two magic bytes, then the data. *)
Definition gzip (data : list byte) : list byte := (x1f :: x8b :: data)%byte.

Definition type_by_extension (ext : string) : string :=
  if decide (ext = ".js") then "application/javascript"
  else if decide (ext = ".css") then "text/css; charset=utf-8"
  else "".

(** Agrees with [filepath.Join] on two clean relative paths. *)
Definition join (a b : string) : string :=
  if decide (a = "") then b else a +:+ "/" +:+ b.

Definition world : Env :=
  {| zglob_Glob := glob; os_Stat := stat; os_Open := open; io_Copy := copy;
     s3_PutObject := put; gzip_encode := gzip;
     mime_TypeByExtension := type_by_extension; filepath_Join := join |}.

Definition config : Plugin :=
  {| Endpoint := "http://minio:9000"; Key := "AKIA"; Secret := "hunter2";
     Bucket := "builds"; Region := "us-east-1"; Access := "private";
     Source := "dist/*"; Target := "bundle"; Recursive := false;
     Exclude := ["dist/*.map"]; PathStyle := true; DryRun := false; Compress := false |}.

(** The same configuration as a dry run, and with compression on. *)
Definition dry : Plugin :=
  {| Endpoint := Endpoint config; Key := Key config; Secret := Secret config;
     Bucket := Bucket config; Region := Region config; Access := Access config;
     Source := Source config; Target := Target config; Recursive := Recursive config;
     Exclude := Exclude config; PathStyle := PathStyle config;
     DryRun := true; Compress := Compress config |}.

Definition gzipped : Plugin :=
  {| Endpoint := Endpoint config; Key := Key config; Secret := Secret config;
     Bucket := Bucket config; Region := Region config; Access := Access config;
     Source := Source config; Target := Target config; Recursive := Recursive config;
     Exclude := Exclude config; PathStyle := PathStyle config;
     DryRun := DryRun config; Compress := true |}.

(** The state in which the loop of [Exec] starts. *)
Definition at_loop (p : Plugin) : State :=
  (matches world (Source p) (Exclude p) (started (init p))).1.

(** The state after the iterations of [pre]. *)
Definition after (p : Plugin) (pre : list string) : State :=
  (for_range pre (upload world (new_client p)) (at_loop p)).1.

End Fixture.


(** ** More ways to read a run *)

(** The files a trace closed, in order. *)
Definition closes (tr : list Event) : list File :=
  omap (fun e => match e with EvClose f => Some f | _ => None end) tr.

(** The log lines of a trace, in order. *)
Definition logs (tr : list Event) : list Event :=
  omap (fun e => match e with EvLog _ _ _ => Some e | _ => None end) tr.

(** The clients the writes of a trace went through, in order. *)
Definition clients (tr : list Event) : list aws.Config :=
  omap (fun e => match e with EvPutObject client _ => Some client | _ => None end) tr.

(** A request with its body and content encoding taken off. *)
Definition header (input : s3.PutObjectInput) : s3.PutObjectInput :=
  {| s3.Bucket := s3.Bucket input; s3.Key := s3.Key input; s3.ACL := s3.ACL input;
     s3.ContentType := s3.ContentType input;
     s3.ContentEncoding := None; s3.Body := None |}.

(** The body and the content encoding a request has with and without
    compression. *)
Definition body_as (compress : bool) (input : s3.PutObjectInput) : Prop :=
  if compress then
    s3.ContentEncoding input = Some "gzip"
    /\ exists b, s3.Body input = Some (BytesReader b)
  else
    s3.ContentEncoding input = None
    /\ exists f, s3.Body input = Some (FileReader f).

Section Observing.

Variable W : Env.

(** The files the calls [todo] opened, in order, when they were made after
    the calls [done]: each open is answered on the trace before it. *)
Fixpoint handles_from (done todo : list Event) : list File :=
  match todo with
  | [] => []
  | e :: rest =>
      match e with
      | EvOpen path =>
          match os_Open W done path with
          | Ok f => f :: handles_from (done ++ [e]) rest
          | Err _ => handles_from (done ++ [e]) rest
          end
      | _ => handles_from (done ++ [e]) rest
      end
  end.

(** The call [ev], made after the trace [tr], was answered with the error [e]. *)
Inductive raised (tr : list Event) (e : error) : Event -> Prop :=
| raised_by_glob pattern :
    zglob_Glob W tr pattern = Err e -> raised tr e (EvGlob pattern)
| raised_by_open path :
    os_Open W tr path = Err e -> raised tr e (EvOpen path)
| raised_by_copy f :
    io_Copy W tr f = Err e -> raised tr e (EvCopy f)
| raised_by_put client input :
    s3_PutObject W tr client input = Some e -> raised tr e (EvPutObject client input).

(** The answers of the globber, and of stat, do not depend on the calls made
    before: the file system stands still during the run. *)
Definition static_glob : Prop :=
  forall tr tr' pattern, zglob_Glob W tr pattern = zglob_Glob W tr' pattern.

Definition static_stat : Prop :=
  forall tr tr' path, os_Stat W tr path = os_Stat W tr' path.

(** Under [static_stat]: the path is there and is not a directory. *)
Definition is_file (path : string) : bool :=
  match os_Stat W [] path with
  | Ok stat => negb (IsDir stat)
  | Err _ => false
  end.

(** The glob calls [matches] makes when every pattern expands. *)
Definition globs (include : string) (exclude : list string) : list Event :=
  EvGlob include :: (EvGlob <$> exclude).

End Observing.

(** ** More of the small world *)

Module Scenario.

(** Two style sheets, nothing excluded: a run that goes through. *)
Definition styles : Plugin :=
  {| Endpoint := "http://minio:9000"; Key := "AKIA"; Secret := "hunter2";
     Bucket := "builds"; Region := "us-east-1"; Access := "public-read";
     Source := "dist/*.css"; Target := ""; Recursive := false;
     Exclude := []; PathStyle := true; DryRun := false; Compress := false |}.

Definition styles_dry : Plugin :=
  {| Endpoint := Endpoint styles; Key := Key styles; Secret := Secret styles;
     Bucket := Bucket styles; Region := Region styles; Access := Access styles;
     Source := "dist/*"; Target := Target styles; Recursive := Recursive styles;
     Exclude := Exclude styles; PathStyle := PathStyle styles;
     DryRun := true; Compress := Compress styles |}.

(** A source pattern the globber rejects. *)
Definition broken : Plugin :=
  {| Endpoint := Endpoint styles; Key := Key styles; Secret := Secret styles;
     Bucket := Bucket styles; Region := Region styles; Access := Access styles;
     Source := "dist/["; Target := Target styles; Recursive := Recursive styles;
     Exclude := ["dist/*.map"]; PathStyle := PathStyle styles;
     DryRun := DryRun styles; Compress := Compress styles |}.

End Scenario.

(** * Properties *)

Section Properties.

Variable W : Env.

(** ** The monad *)

Lemma bind_run {A B} (m : M A) (k : A -> M B) s :
  (m ≫= k) s = match m s with
               | (s', Ok a) => k a s'
               | (s', Err e) => (s', Err e)
               end.
Proof. reflexivity. Qed.

Lemma for_range_cons {A} (x : A) l body s :
  for_range (x :: l) body s =
  match body x s with
  | (s', Ok _) => for_range l body s'
  | (s', Err e) => (s', Err e)
  end.
Proof. reflexivity. Qed.

Lemma for_range_app {A} (l1 l2 : list A) body s s1 :
  for_range l1 body s = (s1, Ok tt) ->
  for_range (l1 ++ l2) body s = for_range l2 body s1.
Proof.
  revert s. induction l1 as [|x l1 IH]; intros s H.
  - cbn in H. by inversion H.
  - rewrite <- app_comm_cons, for_range_cons. rewrite for_range_cons in H.
    destruct (body x s) as [s' [[]|e]]; [by apply IH | discriminate].
Qed.

(** ** matches *)

Lemma mark_excluded_lookup excludes (m : gmap string bool) x :
  is_Some (mark_excluded m excludes !! x) <-> is_Some (m !! x) \/ x ∈ excludes.
Proof.
  unfold mark_excluded. revert m.
  induction excludes as [|y ys IH]; intros m; cbn.
  - rewrite elem_of_nil. tauto.
  - rewrite IH, elem_of_cons, lookup_insert. case_decide; subst.
    + split; [auto | intros _; left; eauto].
    + split; intros [?|?]; auto. destruct H0; [congruence | auto].
Qed.

Lemma exclude_loop_marks exclude : forall (m : gmap string bool) s E,
  exclusion_set W exclude (trace s) = Ok E ->
  exists m',
    exclude_loop W exclude m s =
      ({| plugin := plugin s; trace := trace s ++ (EvGlob <$> exclude);
          deferred := deferred s |}, Ok m')
    /\ forall x, is_Some (m' !! x) <-> is_Some (m !! x) \/ x ∈ E.
Proof.
  induction exclude as [|pattern rest IH]; intros m s E HE; cbn in HE.
  - inversion HE; subst. exists m. split.
    + cbn. rewrite app_nil_r. by destruct s.
    + intros x. rewrite elem_of_empty. tauto.
  - destruct (zglob_Glob W (trace s) pattern) as [excludes|err] eqn:Hg.
    2: discriminate.
    destruct (exclusion_set W rest (trace s ++ [EvGlob pattern])) as [E'|err] eqn:HE';
      [|discriminate].
    inversion HE; subst.
    destruct (IH (mark_excluded m excludes) (record (EvGlob pattern) s) E' HE')
      as (m' & Hrun & Hm').
    exists m'. split.
    + cbn [exclude_loop]. rewrite bind_run. unfold Glob, ask. rewrite Hg, Hrun.
      cbn. by rewrite <- app_assoc.
    + intros x. rewrite Hm', mark_excluded_lookup, elem_of_union, elem_of_list_to_set.
      tauto.
Qed.

Lemma include_loop_filter (m : gmap string bool) matches :
  include_loop m matches = filter (fun x => m !! x = None) matches.
Proof.
  unfold include_loop.
  enough (forall acc,
    foldl (fun included include =>
             match m !! include with
             | Some _ => included
             | None => included ++ [include]
             end) acc matches = acc ++ filter (fun x => m !! x = None) matches)
    as H by apply (H []).
  induction matches as [|x xs IH]; intros acc; cbn [foldl].
  - by rewrite filter_nil, app_nil_r.
  - rewrite IH. destruct (m !! x) eqn:Hx.
    + rewrite filter_cons_False; [done | congruence].
    + rewrite filter_cons_True by done. by rewrite <- app_assoc.
Qed.

(** C8: with no exclude pattern, [matches] hands back what the glob of the
    include pattern answered, elements and order untouched (and its error,
    when it fails); the glob is the one call it makes. *)
Theorem matches_no_exclude include s :
  matches W include [] s = (record (EvGlob include) s, zglob_Glob W (trace s) include).
Proof.
  unfold matches. rewrite bind_run. unfold Glob, ask.
  by destruct (zglob_Glob W (trace s) include).
Qed.

(** C1: with at least one exclude pattern, when the include pattern expands
    to the list [I] and the exclude patterns together expand to the set [E],
    [matches] returns the elements of [I] that are not in [E], in the order
    of [I], each as often as [I] has it. *)
Theorem matches_filters_excluded include exclude s I E :
  exclude <> [] ->
  zglob_Glob W (trace s) include = Ok I ->
  exclusion_set W exclude (trace s ++ [EvGlob include]) = Ok E ->
  (matches W include exclude s).2 = Ok (filter (fun x => x ∉ E) I).
Proof.
  intros Hne HI HE. unfold matches. rewrite bind_run. unfold Glob at 1, ask. rewrite HI.
  destruct (decide (length exclude = 0)) as [H0|_].
  { destruct exclude; [done | discriminate]. }
  rewrite bind_run.
  destruct (exclude_loop_marks exclude ∅ (record (EvGlob include) s) E HE)
    as (m' & -> & Hm').
  cbn. f_equal. rewrite include_loop_filter. apply list_filter_iff. intros x.
  specialize (Hm' x). rewrite lookup_empty in Hm'.
  rewrite eq_None_not_Some, Hm'. split.
  - intros H Hx. apply H. by right.
  - intros H [[? [=]]|Hx]. by apply H.
Qed.

(** ** contentType and the object key *)

(** A path without a dot has no extension. *)
Lemma Ext_no_dot path :
  (forall j c, String.get j path = Some c -> c <> "."%char) ->
  filepath_Ext path = "".
Proof.
  intros Hdot. unfold filepath_Ext. generalize (String.length path) as i.
  induction i as [|j IH]; cbn [Ext_scan]; [done|].
  destruct (String.get j path) as [c|] eqn:Hc; [|done].
  destruct (Ascii.eqb c "/"); [done|].
  destruct (Ascii.eqb c ".") eqn:Hc'; [|done].
  apply Ascii.eqb_eq in Hc'. by destruct (Hdot _ _ Hc).
Qed.

(** C6: [contentType] answers every path with a MIME type that is not empty;
    when the table has no type for the extension of the path the answer is
    [application/octet-stream], and so it is for a path with no extension,
    the table having no entry under the empty extension. *)
Theorem contentType_total path :
  contentType W path <> ""
  /\ (mime_TypeByExtension W (filepath_Ext path) = "" ->
      contentType W path = "application/octet-stream")
  /\ (mime_TypeByExtension W "" = "" -> filepath_Ext path = "" ->
      contentType W path = "application/octet-stream").
Proof.
  unfold contentType. repeat split.
  - by case_decide.
  - intros ->. by case_decide.
  - intros H0 ->. rewrite H0. by case_decide.
Qed.

Lemma single_leading_slash_other c rest :
  c <> "/"%char ->
  single_leading_slash (String "/" (String c rest)) = String "/" (String c rest).
Proof.
  intros Hc. destruct c as [[] [] [] [] [] [] [] []]; try reflexivity. by destruct Hc.
Qed.

Lemma prefix_slash c rest :
  String.prefix "/" (String c rest) = true <-> c = "/"%char.
Proof.
  cbn [String.prefix]. destruct (ascii_dec "/" c) as [<-|Hc].
  - by destruct rest.
  - split; [discriminate | congruence].
Qed.

(** C5: the key of a match starts with a slash, and it is the joined path
    with a slash put in front, a double slash at the front made single. *)
Theorem target_key_absolute t p :
  String.prefix "/" (target_key W t p) = true
  /\ target_key W t p = single_leading_slash ("/" +:+ filepath_Join W t p).
Proof.
  unfold target_key. destruct (filepath_Join W t p) as [|c rest]; [done|].
  destruct (String.prefix "/" (String c rest)) eqn:H; cbn [negb].
  - split; [done|]. apply prefix_slash in H as ->. reflexivity.
  - split; [apply prefix_slash; reflexivity |].
    symmetry. apply single_leading_slash_other. intros ->.
    by rewrite (proj2 (prefix_slash "/" rest)) in H.
Qed.

(** ** The loop body, step by step *)

Ltac unfold_M :=
  unfold Glob, Stat, Open, Copy, PutObject, Close, log in *;
  unfold mbind, M_bind, mret, M_ret, throw, call, field, emit, ask, defer_Close in *;
  cbv beta in *.

Lemma upload_stat_fails client match_ s e :
  os_Stat W (trace s) match_ = Err e ->
  upload W client match_ s = (record (EvStat match_) s, Ok tt).
Proof.
  intros H. unfold upload. rewrite bind_run. unfold Stat, ask. by rewrite H.
Qed.

Lemma upload_directory client match_ s stat :
  os_Stat W (trace s) match_ = Ok stat -> IsDir stat = true ->
  upload W client match_ s = (record (EvStat match_) s, Ok tt).
Proof.
  intros H Hd. unfold upload. rewrite bind_run. unfold Stat, ask. by rewrite H, Hd.
Qed.

Lemma upload_dry_run client match_ s stat :
  os_Stat W (trace s) match_ = Ok stat -> IsDir stat = false ->
  DryRun (plugin s) = true ->
  upload W client match_ s = (announced W s match_, Ok tt).
Proof.
  intros H Hd Hdry. unfold upload. unfold_M. rewrite H, Hd. cbn. by rewrite Hdry.
Qed.

(** C7: a match whose stat fails costs the run that one call and nothing
    else: the iteration logs nothing, returns no error, and the loop goes on
    with the matches that follow. *)
Theorem stat_failure_is_skipped client match_ rest s e :
  os_Stat W (trace s) match_ = Err e ->
  upload W client match_ s = (record (EvStat match_) s, Ok tt)
  /\ for_range (match_ :: rest) (upload W client) s =
     for_range rest (upload W client) (record (EvStat match_) s).
Proof.
  intros H. split; [by eapply upload_stat_fails |].
  rewrite for_range_cons. by erewrite upload_stat_fails.
Qed.

(** ** What a run leaves alone *)

Lemma keeps_ret {A} (a : A) : keeps_plugin (mret a).
Proof. by intros s. Qed.

Lemma keeps_throw {A} e : keeps_plugin (@throw A e).
Proof. by intros s. Qed.

Lemma keeps_field {A} (f : Plugin -> A) : keeps_plugin (field f).
Proof. by intros s. Qed.

Lemma keeps_emit e : keeps_plugin (emit e).
Proof. by intros s. Qed.

Lemma keeps_ask {A} e (answer : list Event -> A) : keeps_plugin (ask e answer).
Proof. by intros s. Qed.

Lemma keeps_defer f : keeps_plugin (defer_Close f).
Proof. by intros s. Qed.

Lemma keeps_bind {A B} (m : M A) (k : A -> M B) :
  keeps_plugin m -> (forall a, keeps_plugin (k a)) -> keeps_plugin (m ≫= k).
Proof.
  intros Hm Hk s. rewrite bind_run. specialize (Hm s).
  destruct (m s) as [s' [a|e]]; cbn in *; [|done]. by rewrite Hk.
Qed.

Lemma keeps_call {A} (m : M A) : keeps_plugin m -> keeps_plugin (call m).
Proof. intros Hm s. specialize (Hm s). unfold call. by destruct (m s). Qed.

Lemma keeps_for_range {A} (l : list A) body :
  (forall x, keeps_plugin (body x)) -> keeps_plugin (for_range l body).
Proof.
  intros Hb. induction l as [|x l IH]; [apply keeps_ret |].
  cbn [for_range]. apply keeps_bind; auto.
Qed.

Lemma keeps_with_defers {A} (m : M A) : keeps_plugin m -> keeps_plugin (with_defers m).
Proof. intros Hm s. specialize (Hm s). unfold with_defers. by destruct (m s). Qed.

Lemma oblivious_ret {A} (a : A) : oblivious (mret a).
Proof. by intros b s. Qed.

Lemma oblivious_throw {A} e : oblivious (@throw A e).
Proof. by intros b s. Qed.

Lemma oblivious_field {A} (f : Plugin -> A) :
  (forall b p, f (set_Recursive b p) = f p) -> oblivious (field f).
Proof. intros Hf b s. unfold field. cbn. by rewrite Hf. Qed.

Lemma oblivious_emit e : oblivious (emit e).
Proof. by intros b s. Qed.

Lemma oblivious_ask {A} e (answer : list Event -> A) : oblivious (ask e answer).
Proof. by intros b s. Qed.

Lemma oblivious_defer f : oblivious (defer_Close f).
Proof. by intros b s. Qed.

Lemma oblivious_bind {A B} (m : M A) (k : A -> M B) :
  oblivious m -> (forall a, oblivious (k a)) -> oblivious (m ≫= k).
Proof.
  intros Hm Hk b s. rewrite !bind_run, Hm.
  destruct (m s) as [s' [a|e]]; cbn; [apply Hk | done].
Qed.

Lemma oblivious_call {A} (m : M A) : oblivious m -> oblivious (call m).
Proof. intros Hm b s. unfold call. rewrite Hm. by destruct (m s). Qed.

Lemma oblivious_for_range {A} (l : list A) body :
  (forall x, oblivious (body x)) -> oblivious (for_range l body).
Proof.
  intros Hb. induction l as [|x l IH]; [apply oblivious_ret |].
  cbn [for_range]. apply oblivious_bind; auto.
Qed.

Lemma oblivious_with_defers {A} (m : M A) : oblivious m -> oblivious (with_defers m).
Proof. intros Hm b s. unfold with_defers. rewrite Hm. by destruct (m s). Qed.

Create HintDb frame_keeps.
Create HintDb frame_oblivious.

#[local] Hint Resolve keeps_ret keeps_throw keeps_field keeps_emit keeps_ask keeps_defer : frame_keeps.
#[local] Hint Resolve oblivious_ret oblivious_throw oblivious_emit oblivious_ask
  oblivious_defer : frame_oblivious.
#[local] Hint Extern 1 (oblivious (field _)) =>
  (apply oblivious_field; intros ? ?; reflexivity) : frame_oblivious.

(** Walks a program of the monad: a bind splits in two, a branch is taken
    both ways, a leaf is closed from the hint base [db]. *)
Ltac walk bind_lemma db :=
  repeat first
    [ progress cbv zeta
    | apply bind_lemma; [|intros ?]
    | match goal with
      | |- _ (match ?x with _ => _ end) => destruct x
      end
    | solve [auto with db] ].

Lemma exclude_loop_keeps exclude : forall m, keeps_plugin (exclude_loop W exclude m).
Proof.
  induction exclude as [|pattern rest IH]; intros m; cbn [exclude_loop];
    unfold Glob; walk @keeps_bind frame_keeps.
Qed.

Lemma matches_keeps include exclude : keeps_plugin (matches W include exclude).
Proof.
  unfold matches, Glob. walk @keeps_bind frame_keeps. apply exclude_loop_keeps.
Qed.

Lemma upload_keeps client match_ : keeps_plugin (upload W client match_).
Proof.
  unfold upload, Stat, Open, Copy, PutObject, Close, log. walk @keeps_bind frame_keeps.
Qed.

Lemma Exec_body_keeps : keeps_plugin (Exec_body W).
Proof.
  unfold Exec_body, log. walk @keeps_bind frame_keeps.
  - apply keeps_call, matches_keeps.
  - apply keeps_for_range, upload_keeps.
Qed.

Lemma exclude_loop_oblivious exclude : forall m, oblivious (exclude_loop W exclude m).
Proof.
  induction exclude as [|pattern rest IH]; intros m; cbn [exclude_loop];
    unfold Glob; walk @oblivious_bind frame_oblivious.
Qed.

Lemma matches_oblivious include exclude : oblivious (matches W include exclude).
Proof.
  unfold matches, Glob. walk @oblivious_bind frame_oblivious. apply exclude_loop_oblivious.
Qed.

Lemma upload_oblivious client match_ : oblivious (upload W client match_).
Proof.
  unfold upload, Stat, Open, Copy, PutObject, Close, log. walk @oblivious_bind frame_oblivious.
Qed.

Lemma Exec_body_oblivious : oblivious (Exec_body W).
Proof.
  unfold Exec_body, log. walk @oblivious_bind frame_oblivious.
  - apply oblivious_call, matches_oblivious.
  - apply oblivious_for_range, upload_oblivious.
Qed.

(** [Exec] up to the loop: the client is built, the start is logged and
    [matches] is called on the source and exclude patterns. *)
Lemma Exec_body_run s :
  Exec_body W s =
  match matches W (Source (plugin s)) (Exclude (plugin s)) (started s) with
  | (s1, Ok matches) => for_range matches (upload W (new_client (plugin s))) s1
  | (s1, Err err) =>
      (record (EvLog Error [("error", LErr err)] "Could not match files") s1, Err err)
  end.
Proof.
  unfold Exec_body. unfold_M. cbn. fold (started s).
  by destruct (matches W (Source (plugin s)) (Exclude (plugin s)) (started s))
    as [s1 [ms|err]].
Qed.

(** C9: [Exec] leaves every field of the configuration as it found it,
    whether it returns [nil] or an error. *)
Theorem Exec_keeps_configuration s : plugin (Exec W s).1 = plugin s.
Proof. apply keeps_with_defers, Exec_body_keeps. Qed.

(** C10: a run does not depend on [Recursive].  With the flag set either
    way, [matches] returns the same list, [Exec] makes the same calls in the
    same order, the write requests among them, and returns the same result. *)
Theorem Recursive_is_ignored b s :
  (matches W (Source (set_Recursive b (plugin s))) (Exclude (set_Recursive b (plugin s)))
     (started (with_Recursive b s))).2
  = (matches W (Source (plugin s)) (Exclude (plugin s)) (started s)).2
  /\ trace (Exec W (with_Recursive b s)).1 = trace (Exec W s).1
  /\ puts (trace (Exec W (with_Recursive b s)).1) = puts (trace (Exec W s).1)
  /\ (Exec W (with_Recursive b s)).2 = (Exec W s).2.
Proof.
  pose proof (oblivious_with_defers _ Exec_body_oblivious b s) as H.
  fold (Exec W) in H. rewrite H. cbn. repeat split.
  change (started (with_Recursive b s)) with (with_Recursive b (started s)).
  by rewrite matches_oblivious.
Qed.

(** ** Dry runs *)

Lemma opens_app tr1 tr2 : opens (tr1 ++ tr2) = opens tr1 ++ opens tr2.
Proof. apply omap_app. Qed.

Lemma puts_app tr1 tr2 : puts (tr1 ++ tr2) = puts tr1 ++ puts tr2.
Proof. apply omap_app. Qed.

Lemma globs_quiet patterns : opens (EvGlob <$> patterns) = [] /\ puts (EvGlob <$> patterns) = [].
Proof. by induction patterns. Qed.

Lemma closes_quiet files : opens (EvClose <$> files) = [] /\ puts (EvClose <$> files) = [].
Proof. by induction files. Qed.

Lemma dry_trace_quiet p matches : forall tr,
  opens (dry_trace W p matches tr) = opens tr /\ puts (dry_trace W p matches tr) = puts tr.
Proof.
  induction matches as [|m rest IH]; intros tr; cbn [dry_trace]; [done|].
  destruct (os_Stat W tr m) as [stat|]; [destruct (IsDir stat) |];
    match goal with
    | |- context [dry_trace W p rest ?t] => destruct (IH t) as [-> ->]
    end;
    rewrite ?opens_app, ?puts_app; cbn; by rewrite ?app_nil_r.
Qed.

Lemma for_range_dry client matches : forall s,
  DryRun (plugin s) = true ->
  for_range matches (upload W client) s =
  ({| plugin := plugin s; trace := dry_trace W (plugin s) matches (trace s);
      deferred := deferred s |}, Ok tt).
Proof.
  induction matches as [|m rest IH]; intros s Hdry.
  - by destruct s.
  - rewrite for_range_cons. cbn [dry_trace].
    destruct (os_Stat W (trace s) m) as [stat|e] eqn:Hstat.
    + destruct (IsDir stat) eqn:Hdir.
      * erewrite upload_directory by done. by rewrite IH.
      * erewrite upload_dry_run by done. by rewrite IH.
    + erewrite upload_stat_fails by done. by rewrite IH.
Qed.

Lemma exclude_loop_state exclude : forall m s,
  exists patterns,
    (exclude_loop W exclude m s).1 =
    {| plugin := plugin s; trace := trace s ++ (EvGlob <$> patterns);
       deferred := deferred s |}.
Proof.
  induction exclude as [|pattern rest IH]; intros m s; cbn [exclude_loop].
  - exists []. cbn. rewrite app_nil_r. by destruct s.
  - unfold_M. destruct (zglob_Glob W (trace s) pattern) as [excludes|err].
    + destruct (IH (mark_excluded m excludes) (record (EvGlob pattern) s)) as [ps ->].
      exists (pattern :: ps). cbn. by rewrite <- app_assoc.
    + by exists [pattern].
Qed.

(** [matches] only globs: it leaves the configuration and the deferred
    closes alone and adds glob calls to the trace. *)
Lemma matches_state include exclude s :
  exists patterns,
    (matches W include exclude s).1 =
    {| plugin := plugin s; trace := trace s ++ (EvGlob <$> patterns);
       deferred := deferred s |}.
Proof.
  unfold matches. rewrite bind_run. unfold Glob at 1, ask.
  destruct (zglob_Glob W (trace s) include) as [I|err]; [|by exists [include]].
  case_decide; [by exists [include] |].
  rewrite bind_run.
  destruct (exclude_loop_state exclude ∅ (record (EvGlob include) s)) as [ps Hps].
  exists (include :: ps).
  destruct (exclude_loop W exclude ∅ (record (EvGlob include) s)) as [s' [m'|err]];
    cbn in *; subst s'; cbn; by rewrite <- app_assoc.
Qed.

(** C3: in a dry run [Exec] opens no file and issues no write, whatever the
    other settings are.  When [matches] succeeds the run returns [nil] and
    the loop leaves exactly the stat of every match and the announcement
    (name, bucket, key and content type) of every match that is a file. *)
Theorem dry_run_opens_and_writes_nothing s :
  DryRun (plugin s) = true ->
  opens (trace (Exec W s).1) = opens (trace s)
  /\ puts (trace (Exec W s).1) = puts (trace s)
  /\ forall s1 ms,
       matches W (Source (plugin s)) (Exclude (plugin s)) (started s) = (s1, Ok ms) ->
       Exec W s =
       (returned {| plugin := plugin s;
                    trace := dry_trace W (plugin s) ms (trace s1);
                    deferred := deferred s |}, Ok tt).
Proof.
  intros Hdry.
  destruct (matches_state (Source (plugin s)) (Exclude (plugin s)) (started s))
    as [ps Hps].
  assert (Hrun : Exec W s = with_defers (Exec_body W) s) by reflexivity.
  unfold with_defers in Hrun. rewrite Exec_body_run in Hrun.
  destruct (matches W (Source (plugin s)) (Exclude (plugin s)) (started s))
    as [s1 [ms|err]] eqn:Hm; cbn in Hps; subst s1.
  - rewrite for_range_dry in Hrun by done. rewrite Hrun. cbn.
    rewrite !opens_app, !puts_app, !(proj1 (closes_quiet _)), !(proj2 (closes_quiet _)).
    rewrite (proj1 (dry_trace_quiet _ _ _)), (proj2 (dry_trace_quiet _ _ _)).
    rewrite !opens_app, !puts_app, !(proj1 (globs_quiet _)), !(proj2 (globs_quiet _)).
    cbn. rewrite !app_nil_r. repeat split.
    intros s1 matches' [= <- <-]. reflexivity.
  - rewrite Hrun. unfold record. cbn [fst trace plugin deferred].
    rewrite !opens_app, !puts_app, !(proj1 (closes_quiet _)), !(proj2 (closes_quiet _)).
    rewrite !(proj1 (globs_quiet _)), !(proj2 (globs_quiet _)).
    cbn. rewrite !app_nil_r. repeat split. intros s1 matches' [=].
Qed.

(** ** Uploads *)

Ltac to_open Hreach :=
  destruct Hreach as (stat & Hstat & Hdir & Hdry);
  unfold upload; unfold_M; rewrite Hstat, Hdir; cbn; rewrite Hdry;
  unfold opened, announced, announce, request, record in *; cbn in *.

Lemma upload_open_fails client match_ s err :
  reaches_open W s match_ ->
  os_Open W (trace (announced W s match_)) match_ = Err err ->
  upload W client match_ s =
  (record (EvLog Error [("error", LErr err); ("file", LStr match_)] "Problem opening file")
     (record (EvOpen match_) (announced W s match_)), Err err).
Proof. intros Hreach Hopen. to_open Hreach. by rewrite Hopen. Qed.

Lemma upload_copy_fails client match_ s f err :
  reaches_open W s match_ ->
  os_Open W (trace (announced W s match_)) match_ = Ok f ->
  Compress (plugin s) = true ->
  io_Copy W (trace (opened W s match_ f)) f = Err err ->
  upload W client match_ s =
  (record (EvLog Error [("error", LErr err); ("file", LStr match_)] "Problem gzipping file")
     (record (EvCopy f) (opened W s match_ f)), Err err).
Proof.
  intros Hreach Hopen Hz Hcopy. to_open Hreach. rewrite Hopen. cbn. rewrite Hz. cbn. by rewrite Hcopy.
Qed.

Lemma upload_compressed client match_ s f data :
  reaches_open W s match_ ->
  os_Open W (trace (announced W s match_)) match_ = Ok f ->
  Compress (plugin s) = true ->
  io_Copy W (trace (opened W s match_ f)) f = Ok data ->
  upload W client match_ s =
  finish W client (record (EvCopy f) (opened W s match_ f)) match_ f
    (set_gzip_body (request W (plugin s) match_) (gzip_encode W data)).
Proof.
  intros Hreach Hopen Hz Hcopy. to_open Hreach. rewrite Hopen. cbn. rewrite Hz. cbn. rewrite Hcopy.
  unfold finish, record. cbn.
  by destruct (s3_PutObject W _ client _).
Qed.

Lemma upload_raw client match_ s f :
  reaches_open W s match_ ->
  os_Open W (trace (announced W s match_)) match_ = Ok f ->
  Compress (plugin s) = false ->
  upload W client match_ s =
  finish W client (opened W s match_ f) match_ f
    (set_file_body (request W (plugin s) match_) f).
Proof.
  intros Hreach Hopen Hz. to_open Hreach. rewrite Hopen. cbn. rewrite Hz.
  unfold finish, record. cbn.
  by destruct (s3_PutObject W _ client _).
Qed.

Lemma puts_put client input tr : puts (EvPutObject client input :: tr) = input :: puts tr.
Proof. reflexivity. Qed.

Lemma opens_put client input tr : opens (EvPutObject client input :: tr) = opens tr.
Proof. reflexivity. Qed.

Lemma stats_put client input tr : stats (EvPutObject client input :: tr) = stats tr.
Proof. reflexivity. Qed.

Lemma stats_app tr1 tr2 : stats (tr1 ++ tr2) = stats tr1 ++ stats tr2.
Proof. apply omap_app. Qed.

(** What the write and what follows it add to the trace. *)
Lemma finish_trace client s match_ f input :
  exists tail,
    trace (finish W client s match_ f input).1 = trace s ++ EvPutObject client input :: tail
    /\ stats tail = [] /\ opens tail = [] /\ puts tail = [].
Proof.
  unfold finish. destruct (s3_PutObject W (trace s) client input) as [err|]; cbn.
  - eexists [_]. rewrite <- app_assoc. by cbn.
  - eexists [_]. rewrite <- app_assoc. by cbn.
Qed.

Lemma finish_fails client s match_ f input err :
  s3_PutObject W (trace s) client input = Some err ->
  (finish W client s match_ f input).2 = Err err.
Proof. intros H. unfold finish. by rewrite H. Qed.

(** A loop stops at the first iteration that returns an error. *)
Lemma loop_aborts {A} (pre : list A) x post body s s1 s2 err :
  for_range pre body s = (s1, Ok tt) ->
  body x s1 = (s2, Err err) ->
  for_range (pre ++ x :: post) body s = (s2, Err err).
Proof.
  intros Hpre Hx. rewrite (for_range_app _ _ _ _ _ Hpre), for_range_cons. by rewrite Hx.
Qed.

(** [Exec] returns the error of the first iteration that fails, once the
    deferred closes have run. *)
Lemma Exec_aborts s0 s pre match_ post s1 err :
  matches W (Source (plugin s0)) (Exclude (plugin s0)) (started s0)
    = (s, Ok (pre ++ match_ :: post)) ->
  for_range pre (upload W (new_client (plugin s0))) s = (s1, Ok tt) ->
  (upload W (new_client (plugin s0)) match_ s1).2 = Err err ->
  Exec W s0 = (returned (upload W (new_client (plugin s0)) match_ s1).1, Err err).
Proof.
  intros Hm Hpre Hfail. unfold Exec, with_defers. rewrite Exec_body_run, Hm.
  destruct (upload W (new_client (plugin s0)) match_ s1) as [s2 r] eqn:Hup.
  cbn in Hfail. subst r. by rewrite (loop_aborts _ _ _ _ _ _ _ _ Hpre Hup).
Qed.

Lemma reaches_plugin s0 match_ s1 : reaches W s0 match_ s1 -> plugin s1 = plugin s0.
Proof.
  intros (s & pre & post & Hm & Hpre).
  pose proof (matches_keeps (Source (plugin s0)) (Exclude (plugin s0)) (started s0)) as H1.
  pose proof (keeps_for_range pre _ (upload_keeps (new_client (plugin s0))) s) as H2.
  rewrite Hm in H1. rewrite Hpre in H2. cbn in *. congruence.
Qed.

(** C2: take a match that is a file, reached by a run that is not a dry run,
    and opened as [f].  With [Compress] set, the request issued for it has as
    body the gzip encoding of the bytes copied from [f] and [gzip] as content
    encoding, and an error of the copy is what [Exec] returns, no request
    being issued for the match.  With [Compress] unset, the body of the
    request is [f] itself and the content encoding is left [nil]. *)
Theorem compression_property s0 match_ s1 f :
  reaches W s0 match_ s1 ->
  reaches_open W s1 match_ ->
  os_Open W (trace (announced W s1 match_)) match_ = Ok f ->
  if Compress (plugin s0) then
    match io_Copy W (trace (opened W s1 match_ f)) f with
    | Ok data =>
        exists input,
          puts (trace (upload W (new_client (plugin s0)) match_ s1).1)
            = puts (trace s1) ++ [input]
          /\ s3.Body input = Some (BytesReader (gzip_encode W data))
          /\ s3.ContentEncoding input = Some "gzip"
    | Err err =>
        puts (trace (upload W (new_client (plugin s0)) match_ s1).1) = puts (trace s1)
        /\ Exec W s0 = (returned (upload W (new_client (plugin s0)) match_ s1).1, Err err)
    end
  else
    exists input,
      puts (trace (upload W (new_client (plugin s0)) match_ s1).1)
        = puts (trace s1) ++ [input]
      /\ s3.Body input = Some (FileReader f)
      /\ s3.ContentEncoding input = None.
Proof.
  intros Hreach Hfile Hopen.
  pose proof (reaches_plugin _ _ _ Hreach) as Hp.
  destruct Hreach as (s & pre & post & Hm & Hpre).
  destruct (Compress (plugin s0)) eqn:Hz; rewrite <- Hp in Hz.
  - destruct (io_Copy W (trace (opened W s1 match_ f)) f) as [data|err] eqn:Hcopy.
    + rewrite (upload_compressed _ _ _ _ _ Hfile Hopen Hz Hcopy).
      destruct (finish_trace (new_client (plugin s0)) (record (EvCopy f) (opened W s1 match_ f))
                  match_ f (set_gzip_body (request W (plugin s1) match_) (gzip_encode W data)))
        as (tail & -> & _ & _ & Hputs).
      exists (set_gzip_body (request W (plugin s1) match_) (gzip_encode W data)).
      split; [|done].
      unfold opened, announced, record. cbn [trace].
      rewrite !puts_app, puts_put, Hputs. cbn. by rewrite !app_nil_r.
    + pose proof (upload_copy_fails (new_client (plugin s0)) _ _ _ _ Hfile Hopen Hz Hcopy)
        as Hup.
      split.
      * rewrite Hup. unfold opened, announced, record. cbn [fst trace].
        rewrite !puts_app. cbn. by rewrite !app_nil_r.
      * eapply Exec_aborts; [done | done | by rewrite Hup].
  - rewrite (upload_raw _ _ _ _ Hfile Hopen Hz).
    destruct (finish_trace (new_client (plugin s0)) (opened W s1 match_ f)
                match_ f (set_file_body (request W (plugin s1) match_) f))
      as (tail & -> & _ & _ & Hputs).
    exists (set_file_body (request W (plugin s1) match_) f).
    split; [|done].
    unfold opened, announced, record. cbn [trace].
    rewrite !puts_app, puts_put, Hputs. cbn. by rewrite !app_nil_r.
Qed.

(** ** Failures *)

(** The iteration whose open, compression or write fails returns that error,
    having stat'ed and opened the match once and issued at most one write. *)
Lemma step_fails_upload client s match_ err :
  step_fails W client s match_ err ->
  (upload W client match_ s).2 = Err err
  /\ exists new,
       trace (upload W client match_ s).1 = trace s ++ new
       /\ stats new = [match_] /\ opens new = [match_] /\ length (puts new) <= 1.
Proof.
  intros [Hfile Hopen | f Hfile Hopen Hz Hcopy | f data Hfile Hopen Hz Hcopy Hput
         | f Hfile Hopen Hz Hput].
  - rewrite (upload_open_fails _ _ _ _ Hfile Hopen). split; [done|].
    eexists. split.
    { unfold announced, record. cbn [fst trace]. rewrite <- !app_assoc. reflexivity. }
    cbn. repeat split. lia.
  - rewrite (upload_copy_fails _ _ _ _ _ Hfile Hopen Hz Hcopy). split; [done|].
    eexists. split.
    { unfold opened, announced, record. cbn [fst trace]. rewrite <- !app_assoc. reflexivity. }
    cbn. repeat split. lia.
  - rewrite (upload_compressed _ _ _ _ _ Hfile Hopen Hz Hcopy).
    split; [by apply finish_fails |].
    destruct (finish_trace client (record (EvCopy f) (opened W s match_ f)) match_ f
                (set_gzip_body (request W (plugin s) match_) (gzip_encode W data)))
      as (tail & -> & Hs & Ho & Hp).
    eexists. split.
    { unfold opened, announced, record. cbn [trace]. rewrite <- !app_assoc.
      rewrite (app_assoc _ _ (_ :: tail)). reflexivity. }
    rewrite !stats_app, !opens_app, !puts_app, stats_put, opens_put, puts_put, Hs, Ho, Hp.
    cbn. repeat split. lia.
  - rewrite (upload_raw _ _ _ _ Hfile Hopen Hz).
    split; [by apply finish_fails |].
    destruct (finish_trace client (opened W s match_ f) match_ f
                (set_file_body (request W (plugin s) match_) f))
      as (tail & -> & Hs & Ho & Hp).
    eexists. split.
    { unfold opened, announced, record. cbn [trace]. rewrite <- !app_assoc.
      rewrite (app_assoc _ _ (_ :: tail)). reflexivity. }
    rewrite !stats_app, !opens_app, !puts_app, stats_put, opens_put, puts_put, Hs, Ho, Hp.
    cbn. repeat split. lia.
Qed.

(** C4: let [matches] return a list whose iterations before position
    [length pre] went through, and let the open, the compression or the write
    of the match at that position fail with [err].  Then [Exec] returns
    [err] itself.  Its trace is the trace up to that iteration, writes
    included, then what the failing iteration did, which stat'ed and opened
    that one match once and issued at most one write, then the deferred
    closes: no match after it is touched. *)
Theorem first_failure_ends_the_run s0 s pre match_ post s1 err :
  matches W (Source (plugin s0)) (Exclude (plugin s0)) (started s0)
    = (s, Ok (pre ++ match_ :: post)) ->
  for_range pre (upload W (new_client (plugin s0))) s = (s1, Ok tt) ->
  step_fails W (new_client (plugin s0)) s1 match_ err ->
  (Exec W s0).2 = Err err
  /\ (Exec W s0).1 = returned (upload W (new_client (plugin s0)) match_ s1).1
  /\ for_range (pre ++ match_ :: post) (upload W (new_client (plugin s0))) s
     = for_range (pre ++ [match_]) (upload W (new_client (plugin s0))) s
  /\ exists new,
       trace (Exec W s0).1
         = trace s1 ++ new
             ++ (EvClose <$> deferred (upload W (new_client (plugin s0)) match_ s1).1)
       /\ stats new = [match_] /\ opens new = [match_] /\ length (puts new) <= 1
       /\ puts (trace (Exec W s0).1) = puts (trace s1) ++ puts new.
Proof.
  intros Hm Hpre Hfail.
  destruct (step_fails_upload _ _ _ _ Hfail) as (Herr & new & Htr & Hs & Ho & Hp).
  rewrite (Exec_aborts _ _ _ _ _ _ _ Hm Hpre Herr). cbn [fst snd].
  split; [done|]. split; [done|]. split.
  - destruct (upload W (new_client (plugin s0)) match_ s1) as [s2 r] eqn:Hup.
    cbn in Herr. subst r.
    by rewrite !(loop_aborts _ _ _ _ _ _ _ _ Hpre Hup).
  - exists new. unfold returned. cbn [trace]. rewrite Htr, <- app_assoc.
    repeat split; try done.
    rewrite !puts_app, (proj2 (closes_quiet _)). by rewrite app_nil_r.
Qed.

(** * More of [matches] *)

Lemma exclude_loop_fails pre : forall pattern post (m : gmap string bool) s E err,
  exclusion_set W pre (trace s) = Ok E ->
  zglob_Glob W (trace s ++ (EvGlob <$> pre)) pattern = Err err ->
  exclude_loop W (pre ++ pattern :: post) m s =
  ({| plugin := plugin s; trace := trace s ++ (EvGlob <$> pre ++ [pattern]);
      deferred := deferred s |}, Err err).
Proof.
  induction pre as [|p pre IH]; intros pattern post m s E err HE Hfail.
  - cbn in Hfail. rewrite app_nil_r in Hfail.
    cbn [app exclude_loop]. unfold_M. by rewrite Hfail.
  - cbn in HE. destruct (zglob_Glob W (trace s) p) as [excludes|] eqn:Hp; [|done].
    destruct (exclusion_set W pre (trace s ++ [EvGlob p])) as [E'|] eqn:HE'; [|done].
    rewrite <- app_comm_cons. cbn [exclude_loop]. unfold_M. rewrite Hp.
    rewrite (IH pattern post _ (record (EvGlob p) s) E' err HE').
    + cbn. by rewrite <- app_assoc.
    + cbn. rewrite <- app_assoc. exact Hfail.
Qed.

Lemma exclude_loop_globs exclude : forall (m : gmap string bool) s,
  exists k,
    (exclude_loop W exclude m s).1 =
    {| plugin := plugin s; trace := trace s ++ (EvGlob <$> take k exclude);
       deferred := deferred s |}.
Proof.
  induction exclude as [|pattern rest IH]; intros m s; cbn [exclude_loop].
  - exists 0. cbn. rewrite app_nil_r. by destruct s.
  - unfold_M. destruct (zglob_Glob W (trace s) pattern) as [excludes|err].
    + destruct (IH (mark_excluded m excludes) (record (EvGlob pattern) s)) as [k ->].
      exists (S k). cbn. by rewrite <- app_assoc.
    + by exists 1.
Qed.

Lemma exclude_loop_expands exclude : forall (m m' : gmap string bool) s,
  (exclude_loop W exclude m s).2 = Ok m' ->
  exists E, exclusion_set W exclude (trace s) = Ok E.
Proof.
  induction exclude as [|pattern rest IH]; intros m m' s Hrun; cbn [exclude_loop] in Hrun.
  - by exists ∅.
  - unfold_M. cbn [exclusion_set].
    destruct (zglob_Glob W (trace s) pattern) as [excludes|err]; [|done].
    destruct (IH _ _ _ Hrun) as [E HE]. cbn in HE. rewrite HE. by eexists.
Qed.

(** The whole of [matches] when every pattern expands. *)
Lemma matches_with_exclusions include exclude s I E :
  exclude <> [] ->
  zglob_Glob W (trace s) include = Ok I ->
  exclusion_set W exclude (trace s ++ [EvGlob include]) = Ok E ->
  matches W include exclude s =
  ({| plugin := plugin s; trace := trace s ++ globs include exclude;
      deferred := deferred s |}, Ok (filter (fun x => x ∉ E) I)).
Proof.
  intros Hne HI HE. unfold matches. rewrite bind_run. unfold Glob at 1, ask. rewrite HI.
  destruct (decide (length exclude = 0)) as [H0|_].
  { destruct exclude; [done | discriminate]. }
  rewrite bind_run.
  destruct (exclude_loop_marks exclude ∅ (record (EvGlob include) s) E HE)
    as (m' & -> & Hm').
  cbn. rewrite <- app_assoc. rewrite include_loop_filter.
  rewrite (list_filter_iff (fun x => m' !! x = None) (fun x => x ∉ E)); [reflexivity |].
  intros x. specialize (Hm' x). rewrite lookup_empty in Hm'.
  rewrite eq_None_not_Some, Hm'. split.
  - intros H Hx. apply H. by right.
  - intros H [[? [=]]|Hx]. by apply H.
Qed.

Lemma exclusion_set_static :
  static_glob W ->
  forall exclude tr tr', exclusion_set W exclude tr = exclusion_set W exclude tr'.
Proof.
  intros Hstatic. induction exclude as [|p l IH]; intros tr tr'; cbn; [done|].
  by rewrite (Hstatic tr tr'), (IH (tr ++ [EvGlob p]) (tr' ++ [EvGlob p])).
Qed.

(** When the globber stands still, the set the exclude patterns expand to
    depends neither on the trace nor on the order of the patterns. *)
Lemma exclusion_set_permutation exclude exclude' :
  static_glob W -> exclude ≡ₚ exclude' ->
  forall tr tr' E,
    exclusion_set W exclude tr = Ok E -> exclusion_set W exclude' tr' = Ok E.
Proof.
  intros Hstatic Hperm.
  induction Hperm as [|x l l' _ IH|x y l|l l' l'' _ IH1 _ IH2]; intros tr tr' E HE.
  - done.
  - cbn in *. rewrite (Hstatic tr' tr).
    destruct (zglob_Glob W tr x) as [xs|]; [|done].
    destruct (exclusion_set W l (tr ++ [EvGlob x])) as [E0|] eqn:H0; [|done].
    by rewrite (IH _ (tr' ++ [EvGlob x]) _ H0).
  - cbn in *. rewrite (Hstatic tr' (tr ++ [EvGlob y])).
    rewrite (Hstatic (tr' ++ [EvGlob x]) tr).
    destruct (zglob_Glob W tr y) as [ys|]; [|done].
    destruct (zglob_Glob W (tr ++ [EvGlob y]) x) as [xs|]; [|done].
    destruct (exclusion_set W l ((tr ++ [EvGlob y]) ++ [EvGlob x])) as [E0|] eqn:H0;
      [|done].
    rewrite (exclusion_set_static Hstatic l _ ((tr ++ [EvGlob y]) ++ [EvGlob x])), H0.
    inversion HE; subst. f_equal.
    apply set_eq. intros z. rewrite !elem_of_union. tauto.
  - by apply (IH2 tr), (IH1 tr).
Qed.

(** X1: when the glob of the include pattern fails, [matches] returns that
    error after that one call: no exclude pattern is expanded. *)
Theorem matches_include_error include exclude s err :
  zglob_Glob W (trace s) include = Err err ->
  matches W include exclude s = (record (EvGlob include) s, Err err).
Proof.
  intros H. unfold matches. rewrite bind_run. unfold Glob, ask. by rewrite H.
Qed.

(** X2: [matches] returns the error of the first exclude pattern whose glob
    fails, and the patterns after it are never expanded: the glob calls made
    are those of the include pattern and of the exclude patterns up to the
    failing one. *)
Theorem matches_exclude_error include pre pattern post s I E err :
  zglob_Glob W (trace s) include = Ok I ->
  exclusion_set W pre (trace s ++ [EvGlob include]) = Ok E ->
  zglob_Glob W (trace s ++ globs include pre) pattern = Err err ->
  matches W include (pre ++ pattern :: post) s =
  ({| plugin := plugin s; trace := trace s ++ globs include (pre ++ [pattern]);
      deferred := deferred s |}, Err err).
Proof.
  intros HI HE Hfail. unfold matches. rewrite bind_run. unfold Glob at 1, ask. rewrite HI.
  destruct (decide (length (pre ++ pattern :: post) = 0)) as [H0|_].
  { rewrite length_app in H0. cbn in H0. lia. }
  rewrite bind_run.
  rewrite (exclude_loop_fails pre pattern post ∅ (record (EvGlob include) s) E err HE).
  - cbn. by rewrite <- app_assoc.
  - cbn. unfold globs in Hfail. rewrite <- app_assoc. exact Hfail.
Qed.

(** X3: whatever the exclude patterns, a list returned by [matches] is a
    sublist of what the include pattern expanded to: no path is added, none
    is moved. *)
Theorem matches_sublist include exclude s ms :
  (matches W include exclude s).2 = Ok ms ->
  exists I, zglob_Glob W (trace s) include = Ok I /\ ms `sublist_of` I.
Proof.
  unfold matches. rewrite bind_run. unfold Glob at 1, ask.
  destruct (zglob_Glob W (trace s) include) as [I|err]; [|done].
  intros H. exists I. split; [done|]. case_decide.
  - cbn in H. by inversion H.
  - rewrite bind_run in H.
    destruct (exclude_loop W exclude ∅ (record (EvGlob include) s)) as [s' [m'|e]];
      [|done].
    cbn in H. inversion H; subst. rewrite include_loop_filter. apply sublist_filter.
Qed.

(** X4: [matches] does nothing but glob: it leaves the configuration and the
    deferred closes as they are, and the calls it adds to the trace are the
    glob of the include pattern, then the globs of the first exclude
    patterns, in their order. *)
Theorem matches_only_globs include exclude s :
  exists k,
    (matches W include exclude s).1 =
    {| plugin := plugin s; trace := trace s ++ globs include (take k exclude);
       deferred := deferred s |}.
Proof.
  unfold matches. rewrite bind_run. unfold Glob at 1, ask.
  destruct (zglob_Glob W (trace s) include) as [I|err]; [|by exists 0].
  case_decide; [by exists 0 |].
  rewrite bind_run.
  destruct (exclude_loop_globs exclude ∅ (record (EvGlob include) s)) as [k Hk].
  exists k.
  destruct (exclude_loop W exclude ∅ (record (EvGlob include) s)) as [s' [m'|e]];
    cbn in *; subst s'; cbn; by rewrite <- app_assoc.
Qed.

(** X5: when the answers of the globber do not change during the run, the
    order of the exclude patterns does not matter: a permutation of them
    gives the same list. *)
Theorem exclude_order_irrelevant include exclude exclude' s ms :
  static_glob W ->
  exclude ≡ₚ exclude' ->
  (matches W include exclude s).2 = Ok ms ->
  (matches W include exclude' s).2 = Ok ms.
Proof.
  intros Hstatic Hperm Hrun.
  destruct exclude as [|p exclude].
  { apply Permutation_nil_l in Hperm. by subst. }
  assert (exclude' <> []) as Hne'.
  { intros ->. by apply Permutation_nil_r in Hperm. }
  revert Hrun. unfold matches at 1. rewrite bind_run. unfold Glob at 1, ask.
  destruct (zglob_Glob W (trace s) include) as [I|err] eqn:HI; [|done].
  case_decide; [done|]. rewrite bind_run.
  destruct (exclude_loop W (p :: exclude) ∅ (record (EvGlob include) s))
    as [s' [m'|e]] eqn:Hloop; [|done].
  destruct (exclude_loop_expands (p :: exclude) ∅ m' (record (EvGlob include) s))
    as [E HE]; [by rewrite Hloop |].
  destruct (exclude_loop_marks _ ∅ _ _ HE) as (m'' & Hloop' & Hm'').
  rewrite Hloop in Hloop'. inversion Hloop'; subst m''.
  cbn. intros [= <-].
  rewrite (matches_with_exclusions include exclude' s I E Hne' HI
             (exclusion_set_permutation _ _ Hstatic Hperm _ _ _ HE)).
  cbn. f_equal. rewrite include_loop_filter. apply list_filter_iff. intros x.
  specialize (Hm'' x). rewrite lookup_empty in Hm''.
  rewrite eq_None_not_Some, Hm''. split.
  - intros Hx [[? [=]]|Hin]. by apply Hx.
  - intros Hx Hin. apply Hx. by right.
Qed.

(** * More of the loop *)

Lemma closes_app tr1 tr2 : closes (tr1 ++ tr2) = closes tr1 ++ closes tr2.
Proof. apply omap_app. Qed.

Lemma logs_app tr1 tr2 : logs (tr1 ++ tr2) = logs tr1 ++ logs tr2.
Proof. apply omap_app. Qed.

Lemma clients_app tr1 tr2 : clients (tr1 ++ tr2) = clients tr1 ++ clients tr2.
Proof. apply omap_app. Qed.

(** Takes an iteration apart: one case per answer of the environment and per
    flag of the configuration. *)
Ltac upload_cases :=
  unfold upload; unfold_M;
  repeat (cbn;
          match goal with
          | |- context [match ?x with _ => _ end] =>
              lazymatch x with
              | context [match _ with _ => _ end] => fail
              | _ => destruct x eqn:?
              end
          end);
  cbn.

(** Every iteration stats its match, once. *)
Lemma upload_stats client match_ s :
  stats (trace (upload W client match_ s).1) = stats (trace s) ++ [match_].
Proof.
  upload_cases; rewrite ?stats_app; cbn; by rewrite ?app_nil_r.
Qed.

(** What an iteration writes: at most one request, through the client it was
    given, carrying the bucket and the ACL of the configuration, the key and
    the content type of the match, and the body its [Compress] flag calls for. *)
Lemma upload_puts client match_ s :
  exists inputs,
    puts (trace (upload W client match_ s).1) = puts (trace s) ++ inputs
    /\ clients (trace (upload W client match_ s).1)
       = clients (trace s) ++ replicate (length inputs) client
    /\ length inputs <= 1
    /\ Forall (fun input => header input = request W (plugin s) match_
                            /\ body_as (Compress (plugin s)) input) inputs.
Proof.
  upload_cases; rewrite ?puts_app, ?clients_app; cbn; rewrite <- ?app_assoc; cbn.
  all: first
    [ exists []; cbn; rewrite ?app_nil_r; repeat split; [lia | constructor]
    | eexists [_]; cbn; repeat split; [lia |];
      constructor; [split; [reflexivity | cbn; eauto] | constructor] ].
Qed.

Lemma handles_from_app tr new1 : forall before,
  handles_from W before (new1 ++ tr)
  = handles_from W before new1 ++ handles_from W (before ++ new1) tr.
Proof.
  induction new1 as [|e new1 IH]; intros before; cbn [app handles_from].
  - by rewrite app_nil_r.
  - rewrite !IH, <- app_assoc. cbn.
    destruct e; try done. by destruct (os_Open W before path).
Qed.

Lemma handles_from_globs patterns : forall before,
  handles_from W before (EvGlob <$> patterns) = [].
Proof. induction patterns as [|p ps IH]; intros before; cbn; [done | apply IH]. Qed.

Lemma handles_from_closes files : forall before,
  handles_from W before (EvClose <$> files) = [].
Proof. induction files as [|f fs IH]; intros before; cbn; [done | apply IH]. Qed.

(** What an iteration leaves on the stack of deferred closes: the file it
    opened, if it opened one. *)
Lemma upload_handles client match_ s :
  exists new,
    trace (upload W client match_ s).1 = trace s ++ new
    /\ deferred (upload W client match_ s).1
       = reverse (handles_from W (trace s) new) ++ deferred s.
Proof.
  upload_cases; rewrite <- ?app_assoc; cbn.
  all: eexists; (split; [reflexivity |]); cbn.
  all: repeat match goal with
              | H : os_Open W _ _ = _ |- _ => rewrite H
              end; reflexivity.
Qed.

(** An error returned by an iteration is the answer to a call it made. *)
Lemma upload_raises client match_ s e :
  (upload W client match_ s).2 = Err e ->
  exists tr ev,
    raised W tr e ev
    /\ trace s `prefix_of` tr
    /\ tr ++ [ev] `prefix_of` trace (upload W client match_ s).1.
Proof.
  upload_cases; intros [=]; subst.
  all: eexists _, _; split;
    [ first [ eapply raised_by_open; eassumption
            | eapply raised_by_copy; eassumption
            | eapply raised_by_put; eassumption ] |].
  all: split; [repeat apply prefix_app_r; done | apply prefix_app_r; done].
Qed.

Lemma for_range_stats client ms : forall s,
  exists k,
    stats (trace (for_range ms (upload W client) s).1) = stats (trace s) ++ take k ms
    /\ ((for_range ms (upload W client) s).2 = Ok tt ->
        stats (trace (for_range ms (upload W client) s).1) = stats (trace s) ++ ms).
Proof.
  induction ms as [|m ms IH]; intros s.
  - exists 0. cbn. by rewrite app_nil_r.
  - rewrite for_range_cons. pose proof (upload_stats client m s) as Hm.
    destruct (upload W client m s) as [s1 [[]|e]]; cbn in Hm; cbv iota beta.
    + destruct (IH s1) as (k & Hk & Hall). exists (S k).
      split; [by rewrite Hk, Hm, <- app_assoc |].
      intros Hok. by rewrite (Hall Hok), Hm, <- app_assoc.
    + exists 1. cbn. rewrite take_0. by split.
Qed.

Lemma for_range_puts client ms : forall s,
  exists l inputs,
    l `sublist_of` ms
    /\ puts (trace (for_range ms (upload W client) s).1) = puts (trace s) ++ inputs
    /\ header <$> inputs = request W (plugin s) <$> l
    /\ clients (trace (for_range ms (upload W client) s).1)
       = clients (trace s) ++ replicate (length inputs) client
    /\ Forall (body_as (Compress (plugin s))) inputs.
Proof.
  induction ms as [|m ms IH]; intros s.
  - exists [], []. cbn. rewrite !app_nil_r. repeat split; constructor.
  - rewrite for_range_cons.
    destruct (upload_puts client m s) as (inputs & Hputs & Hclients & Hlen & Hall).
    pose proof (upload_keeps client m s) as Hp.
    destruct (upload W client m s) as [s1 [[]|e]]; cbn in Hputs, Hclients, Hp;
      cbv iota beta.
    + destruct (IH s1) as (l & inputs' & Hsub & Hputs' & Hhead & Hclients' & Hall').
      rewrite Hp in Hhead, Hall'.
      destruct inputs as [|input [|? ?]]; [| |cbn in Hlen; lia].
      * exists l, inputs'. rewrite app_nil_r in Hputs, Hclients.
        rewrite Hputs', Hputs, Hclients', Hclients.
        repeat split; try done. by apply sublist_cons.
      * apply Forall_cons in Hall as [[Hh Hb] _].
        exists (m :: l), (input :: inputs').
        rewrite Hputs', Hputs, Hclients', Hclients, <- !app_assoc. cbn.
        repeat split; try done.
        -- by apply sublist_skip.
        -- by rewrite Hh, Hhead.
        -- by constructor.
    + destruct inputs as [|input [|? ?]]; [| |cbn in Hlen; lia].
      * exists [], []. cbn. rewrite app_nil_r in Hputs, Hclients.
        rewrite Hputs, Hclients, !app_nil_r.
        repeat split; try done. apply sublist_nil_l.
      * apply Forall_cons in Hall as [[Hh Hb] _].
        exists [m], [input]. cbn. rewrite Hputs, Hclients.
        repeat split; try done.
        -- apply sublist_skip, sublist_nil_l.
        -- by rewrite Hh.
        -- by repeat constructor.
Qed.

Lemma for_range_handles client ms : forall s,
  exists new,
    trace (for_range ms (upload W client) s).1 = trace s ++ new
    /\ deferred (for_range ms (upload W client) s).1
       = reverse (handles_from W (trace s) new) ++ deferred s.
Proof.
  induction ms as [|m ms IH]; intros s.
  - exists []. cbn. by rewrite app_nil_r.
  - rewrite for_range_cons.
    destruct (upload_handles client m s) as (new & Htr & Hdef).
    destruct (upload W client m s) as [s1 [[]|e]]; cbn in Htr, Hdef; cbv iota beta.
    + destruct (IH s1) as (new' & Htr' & Hdef').
      exists (new ++ new').
      rewrite Htr', Hdef', Htr, Hdef, handles_from_app, reverse_app, <- !app_assoc.
      done.
    + by exists new.
Qed.

Lemma for_range_raises client ms : forall s e,
  (for_range ms (upload W client) s).2 = Err e ->
  exists tr ev,
    raised W tr e ev
    /\ trace s `prefix_of` tr
    /\ tr ++ [ev] `prefix_of` trace (for_range ms (upload W client) s).1.
Proof.
  induction ms as [|m ms IH]; intros s e; [done|].
  rewrite for_range_cons.
  pose proof (upload_raises client m s) as Hm.
  destruct (upload_handles client m s) as (new & Htr & _).
  destruct (upload W client m s) as [s1 [[]|e1]]; cbn in Hm, Htr; cbv iota beta.
  - intros Hfail. destruct (IH s1 e Hfail) as (tr & ev & Hraised & Hpre & Hpost).
    exists tr, ev. repeat split; try done.
    etrans; [|exact Hpre]. rewrite Htr. by apply prefix_app_r.
  - cbn. intros [= ->]. by apply Hm.
Qed.

(** [Exec] as a whole: the call of [matches], the loop, the deferred closes. *)
Lemma Exec_run s :
  Exec W s =
  match matches W (Source (plugin s)) (Exclude (plugin s)) (started s) with
  | (s1, Ok ms) =>
      (returned (for_range ms (upload W (new_client (plugin s))) s1).1,
       (for_range ms (upload W (new_client (plugin s))) s1).2)
  | (s1, Err err) =>
      (returned (record (EvLog Error [("error", LErr err)] "Could not match files") s1),
       Err err)
  end.
Proof.
  unfold Exec, with_defers. rewrite Exec_body_run.
  destruct (matches W (Source (plugin s)) (Exclude (plugin s)) (started s))
    as [s1 [ms|err]]; [|done].
  by destruct (for_range ms (upload W (new_client (plugin s))) s1).
Qed.

Lemma globs_silent patterns :
  stats (EvGlob <$> patterns) = [] /\ clients (EvGlob <$> patterns) = []
  /\ logs (EvGlob <$> patterns) = [] /\ closes (EvGlob <$> patterns) = [].
Proof. by induction patterns. Qed.

Lemma closes_silent files :
  stats (EvClose <$> files) = [] /\ clients (EvClose <$> files) = []
  /\ logs (EvClose <$> files) = [] /\ closes (EvClose <$> files) = files.
Proof.
  induction files as [|f fs (IH1 & IH2 & IH3 & IH4)]; [done|].
  cbn. repeat split; try done. fold (closes (EvClose <$> fs)). by rewrite IH4.
Qed.

Lemma exclude_loop_raises exclude : forall (m : gmap string bool) s e,
  (exclude_loop W exclude m s).2 = Err e ->
  exists tr ev,
    raised W tr e ev
    /\ trace s `prefix_of` tr
    /\ tr ++ [ev] `prefix_of` trace (exclude_loop W exclude m s).1.
Proof.
  induction exclude as [|pattern rest IH]; intros m s e; [done|].
  cbn [exclude_loop]. unfold_M.
  destruct (zglob_Glob W (trace s) pattern) as [excludes|err] eqn:Hg; cbn.
  - intros Hfail.
    destruct (IH _ (record (EvGlob pattern) s) e Hfail) as (tr & ev & Hr & Hpre & Hpost).
    exists tr, ev. repeat split; try done.
    etrans; [|exact Hpre]. by apply prefix_app_r.
  - intros [= ->]. exists (trace s), (EvGlob pattern).
    repeat split; try done. by constructor.
Qed.

Lemma matches_raises include exclude s s' e :
  matches W include exclude s = (s', Err e) ->
  exists tr ev,
    raised W tr e ev /\ trace s `prefix_of` tr /\ tr ++ [ev] `prefix_of` trace s'.
Proof.
  unfold matches. rewrite bind_run. unfold Glob at 1, ask.
  destruct (zglob_Glob W (trace s) include) as [I|err] eqn:Hg.
  - case_decide; [done|]. rewrite bind_run.
    pose proof (exclude_loop_raises exclude ∅ (record (EvGlob include) s) e) as Hloop.
    destruct (exclude_loop W exclude ∅ (record (EvGlob include) s)) as [s1 [m'|e']];
      [done|].
    cbn in Hloop. intros [= -> ->].
    destruct (Hloop eq_refl) as (tr & ev & Hr & Hpre & Hpost).
    exists tr, ev. repeat split; try done.
    etrans; [|exact Hpre]. by apply prefix_app_r.
  - intros [= <- ->]. exists (trace s), (EvGlob include).
    repeat split; try done. by constructor.
Qed.

Lemma Exec_body_handles s :
  exists new,
    trace (Exec_body W s).1 = trace s ++ new
    /\ deferred (Exec_body W s).1 = reverse (handles_from W (trace s) new) ++ deferred s.
Proof.
  rewrite Exec_body_run.
  destruct (matches_state (Source (plugin s)) (Exclude (plugin s)) (started s))
    as [ps Hps].
  destruct (matches W (Source (plugin s)) (Exclude (plugin s)) (started s))
    as [s1 [ms|err]]; cbn in Hps; subst s1.
  - match goal with
    | |- context [for_range ms ?body ?s1] =>
        destruct (for_range_handles (new_client (plugin s)) ms s1)
          as (new & Htr & Hdef)
    end.
    cbn [trace deferred] in Htr, Hdef.
    eexists (_ :: (EvGlob <$> ps) ++ new). rewrite Htr, Hdef. split.
    + rewrite <- !app_assoc. reflexivity.
    + cbn [handles_from]. rewrite handles_from_app, handles_from_globs. done.
  - eexists (_ :: (EvGlob <$> ps) ++ [_]). cbn. split.
    + rewrite <- !app_assoc. reflexivity.
    + by rewrite handles_from_app, handles_from_globs.
Qed.

(** * More of [Exec] *)

(** X6: when [matches] fails, [Exec] logs "Could not match files" and returns
    that error before anything is uploaded: past the start line its trace
    holds glob calls, that log line and the closes that were already
    deferred, so no path is stat'ed, no file opened and no write issued. *)
Theorem Exec_glob_failure s err :
  (matches W (Source (plugin s)) (Exclude (plugin s)) (started s)).2 = Err err ->
  (Exec W s).2 = Err err
  /\ (exists patterns,
        trace (Exec W s).1 =
        trace (started s) ++ (EvGlob <$> patterns)
          ++ [EvLog Error [("error", LErr err)] "Could not match files"]
          ++ (EvClose <$> deferred s))
  /\ stats (trace (Exec W s).1) = stats (trace s)
  /\ opens (trace (Exec W s).1) = opens (trace s)
  /\ puts (trace (Exec W s).1) = puts (trace s).
Proof.
  intros Hfail. rewrite Exec_run.
  destruct (matches_state (Source (plugin s)) (Exclude (plugin s)) (started s))
    as [ps Hps].
  destruct (matches W (Source (plugin s)) (Exclude (plugin s)) (started s))
    as [s1 [ms|e]]; [done|].
  cbn in Hfail, Hps. inversion Hfail; subst.
  unfold returned, started, record. cbn [fst snd trace plugin deferred].
  split; [done|]. split.
  { exists ps. by rewrite <- !app_assoc. }
  rewrite !stats_app, !opens_app, !puts_app.
  rewrite (proj1 (globs_silent ps)), (proj1 (closes_silent (deferred s))).
  rewrite (proj1 (globs_quiet ps)), (proj2 (globs_quiet ps)).
  rewrite (proj1 (closes_quiet (deferred s))), (proj2 (closes_quiet (deferred s))).
  cbn. by rewrite !app_nil_r.
Qed.

(** X7: [Exec] makes up no error.  An error it returns is the answer the
    environment gave to a glob, an open, a copy or a write that the run made,
    and that call is on its trace: a failing stat is never returned. *)
Theorem Exec_error_provenance s e :
  (Exec W s).2 = Err e ->
  exists tr ev,
    raised W tr e ev
    /\ trace s `prefix_of` tr
    /\ tr ++ [ev] `prefix_of` trace (Exec W s).1.
Proof.
  rewrite Exec_run.
  pose proof (matches_raises (Source (plugin s)) (Exclude (plugin s)) (started s)) as Hm.
  destruct (matches_state (Source (plugin s)) (Exclude (plugin s)) (started s))
    as [ps Hps].
  destruct (matches W (Source (plugin s)) (Exclude (plugin s)) (started s))
    as [s1 [ms|err]]; cbn in Hps; cbn [fst snd].
  - intros Hfail.
    destruct (for_range_raises _ _ _ _ Hfail) as (tr & ev & Hr & Hpre & Hpost).
    exists tr, ev. repeat split; try done.
    + etrans; [|exact Hpre]. subst s1. cbn. rewrite <- app_assoc. by apply prefix_app_r.
    + unfold returned. cbn [trace]. by apply prefix_app_r.
  - intros [= ->]. destruct (Hm s1 e eq_refl) as (tr & ev & Hr & Hpre & Hpost).
    exists tr, ev. repeat split; try done.
    + etrans; [|exact Hpre]. cbn. by apply prefix_app_r.
    + unfold returned, record. cbn [trace]. by do 2 apply prefix_app_r.
Qed.

(** X8: a match that is a directory costs the run its stat and nothing else:
    the iteration logs nothing, opens nothing, writes nothing and returns no
    error, and the loop goes on with the matches that follow. *)
Theorem directory_is_skipped client match_ rest s stat :
  os_Stat W (trace s) match_ = Ok stat ->
  IsDir stat = true ->
  upload W client match_ s = (record (EvStat match_) s, Ok tt)
  /\ for_range (match_ :: rest) (upload W client) s =
     for_range rest (upload W client) (record (EvStat match_) s).
Proof.
  intros Hstat Hdir. split; [by eapply upload_directory |].
  rewrite for_range_cons. by erewrite upload_directory.
Qed.

(** X9: [Exec] closes what it opened.  Whatever it returns, its trace ends
    with the deferred closes: one for every file the run opened, the last
    opened first, then those that were already deferred; every file opened is
    among the files closed and no close is left deferred. *)
Theorem Exec_closes_what_it_opened s :
  exists new,
    trace (Exec_body W s).1 = trace s ++ new
    /\ trace (Exec W s).1 =
       trace s ++ new ++ (EvClose <$> (reverse (handles_from W (trace s) new) ++ deferred s))
    /\ (forall f, f ∈ handles_from W (trace s) new -> f ∈ closes (trace (Exec W s).1))
    /\ deferred (Exec W s).1 = [].
Proof.
  destruct (Exec_body_handles s) as (new & Htr & Hdef).
  assert (trace (Exec W s).1 =
          trace s ++ new
            ++ (EvClose <$> (reverse (handles_from W (trace s) new) ++ deferred s)))
    as Hall.
  { unfold Exec, with_defers.
    destruct (Exec_body W s) as [s' r]. cbn in *. by rewrite Htr, Hdef, <- app_assoc. }
  exists new. repeat split; try done.
  - intros f Hf. rewrite Hall, !closes_app, (proj2 (proj2 (proj2 (closes_silent _)))).
    rewrite !elem_of_app. right. right. left. by apply elem_of_reverse.
  - unfold Exec, with_defers. by destruct (Exec_body W s).
Qed.

(** X10: the loop stats the matches in the order [matches] returned them,
    each once, up to the one it stops at; a run that returns [nil] has
    stat'ed every match exactly once. *)
Theorem Exec_stats_in_order s ms :
  (matches W (Source (plugin s)) (Exclude (plugin s)) (started s)).2 = Ok ms ->
  exists k,
    stats (trace (Exec W s).1) = stats (trace s) ++ take k ms
    /\ ((Exec W s).2 = Ok tt -> stats (trace (Exec W s).1) = stats (trace s) ++ ms).
Proof.
  intros Hms. rewrite Exec_run.
  destruct (matches_state (Source (plugin s)) (Exclude (plugin s)) (started s))
    as [ps Hps].
  destruct (matches W (Source (plugin s)) (Exclude (plugin s)) (started s))
    as [s1 [ms'|e]]; [|done].
  cbn in Hms, Hps. inversion Hms; subst ms'. cbn [fst snd].
  destruct (for_range_stats (new_client (plugin s)) ms s1) as (k & Hk & Hall).
  assert (stats (trace s1) = stats (trace s)) as Hs1.
  { subst s1. cbn. rewrite !stats_app, (proj1 (globs_silent ps)). cbn.
    by rewrite !app_nil_r. }
  exists k. unfold returned. cbn [trace].
  rewrite !stats_app, (proj1 (closes_silent _)), app_nil_r. split.
  - by rewrite Hk, Hs1.
  - intros Hok. by rewrite (Hall Hok), Hs1.
Qed.

(** X11: the writes of a run follow the matches.  The requests [Exec] issues
    are, in order, those of a sublist of the list [matches] returned: each
    carries the bucket and the ACL of the configuration and the key and the
    content type of its match, and each goes through the client built from
    the configuration. *)
Theorem Exec_requests_follow_matches s ms :
  (matches W (Source (plugin s)) (Exclude (plugin s)) (started s)).2 = Ok ms ->
  exists l inputs,
    l `sublist_of` ms
    /\ puts (trace (Exec W s).1) = puts (trace s) ++ inputs
    /\ header <$> inputs = request W (plugin s) <$> l
    /\ clients (trace (Exec W s).1)
       = clients (trace s) ++ replicate (length inputs) (new_client (plugin s)).
Proof.
  intros Hms. rewrite Exec_run.
  destruct (matches_state (Source (plugin s)) (Exclude (plugin s)) (started s))
    as [ps Hps].
  destruct (matches W (Source (plugin s)) (Exclude (plugin s)) (started s))
    as [s1 [ms'|e]]; [|done].
  cbn in Hms, Hps. inversion Hms; subst ms'. cbn [fst snd].
  destruct (for_range_puts (new_client (plugin s)) ms s1)
    as (l & inputs & Hsub & Hputs & Hhead & Hclients & _).
  assert (puts (trace s1) = puts (trace s) /\ clients (trace s1) = clients (trace s)
          /\ plugin s1 = plugin s) as (Hp1 & Hc1 & Hpl).
  { subst s1. cbn. rewrite !puts_app, !clients_app, (proj2 (globs_quiet ps)).
    rewrite (proj1 (proj2 (globs_silent ps))). cbn. by rewrite !app_nil_r. }
  exists l, inputs. unfold returned. cbn [trace].
  rewrite !puts_app, !clients_app, (proj2 (closes_quiet _)).
  rewrite (proj1 (proj2 (closes_silent _))), !app_nil_r.
  rewrite Hputs, Hclients, Hp1, Hc1. by rewrite Hpl in Hhead.
Qed.

(** X12: one run, one kind of body.  With [Compress] set every request of the
    run has a buffer in memory as body and [gzip] as content encoding; with
    [Compress] unset every request has an open file as body and no content
    encoding. *)
Theorem Exec_bodies_follow_Compress s :
  exists inputs,
    puts (trace (Exec W s).1) = puts (trace s) ++ inputs
    /\ Forall (body_as (Compress (plugin s))) inputs.
Proof.
  rewrite Exec_run.
  destruct (matches_state (Source (plugin s)) (Exclude (plugin s)) (started s))
    as [ps Hps].
  destruct (matches W (Source (plugin s)) (Exclude (plugin s)) (started s))
    as [s1 [ms|e]]; cbn in Hps; subst s1; cbn [fst snd].
  - match goal with
    | |- context [for_range ms ?body ?s1] =>
        destruct (for_range_puts (new_client (plugin s)) ms s1)
          as (l & inputs & _ & Hputs & _ & _ & Hall)
    end.
    exists inputs. unfold returned. cbn [trace].
    rewrite !puts_app, (proj2 (closes_quiet _)), app_nil_r, Hputs. cbn [trace plugin] in *.
    rewrite !puts_app, (proj2 (globs_quiet ps)). cbn. by rewrite !app_nil_r.
  - exists []. unfold returned, record. cbn [trace].
    rewrite !puts_app, (proj2 (closes_quiet _)), (proj2 (globs_quiet ps)). cbn.
    by rewrite !app_nil_r.
Qed.

(** * Runs on a file system that stands still *)

(** An iteration that returns no error, on a file system that stands still:
    the match is announced if it is a file, and then, unless the run is a dry
    run, written. *)
Lemma upload_file client match_ s :
  static_stat W ->
  (upload W client match_ s).2 = Ok tt ->
  let files := if is_file W match_ then [match_] else [] in
  logs (trace (upload W client match_ s).1)
    = logs (trace s) ++ (announce W (plugin s) <$> files)
  /\ exists inputs,
       puts (trace (upload W client match_ s).1) = puts (trace s) ++ inputs
       /\ header <$> inputs
          = request W (plugin s) <$> (if DryRun (plugin s) then [] else files).
Proof.
  intros Hstatic. unfold is_file. rewrite (Hstatic [] (trace s)).
  upload_cases; intros [=]; rewrite ?logs_app, ?puts_app; cbn;
    rewrite <- ?app_assoc; cbn; rewrite ?app_nil_r.
  all: split; [reflexivity |].
  all: first [ exists []; by rewrite ?app_nil_r | by eexists [_] ].
Qed.

Lemma for_range_files client ms : forall s,
  static_stat W ->
  (for_range ms (upload W client) s).2 = Ok tt ->
  let files := filter (fun m => is_file W m = true) ms in
  logs (trace (for_range ms (upload W client) s).1)
    = logs (trace s) ++ (announce W (plugin s) <$> files)
  /\ exists inputs,
       puts (trace (for_range ms (upload W client) s).1) = puts (trace s) ++ inputs
       /\ header <$> inputs
          = request W (plugin s) <$> (if DryRun (plugin s) then [] else files).
Proof.
  induction ms as [|m ms IH]; intros s Hstatic.
  - intros _. cbn. rewrite !app_nil_r. split; [done|]. exists [].
    rewrite app_nil_r. by destruct (DryRun (plugin s)).
  - rewrite for_range_cons.
    pose proof (upload_file client m s Hstatic) as Hm.
    pose proof (upload_keeps client m s) as Hp.
    destruct (upload W client m s) as [s1 [[]|e]]; cbn in Hm, Hp; cbv iota beta; [|done].
    intros Hok. destruct (Hm eq_refl) as (Hlogs & inputs & Hputs & Hhead).
    destruct (IH s1 Hstatic Hok) as (Hlogs' & inputs' & Hputs' & Hhead').
    cbv zeta. rewrite Hp in Hlogs', Hhead'. rewrite Hlogs', Hlogs, <- app_assoc.
    assert (filter (fun m => is_file W m = true) (m :: ms)
            = (if is_file W m then [m] else [])
                ++ filter (fun m => is_file W m = true) ms) as ->.
    { destruct (is_file W m) eqn:Hf.
      - by rewrite filter_cons_True.
      - rewrite filter_cons_False; [done | congruence]. }
    rewrite fmap_app. split; [done|].
    exists (inputs ++ inputs'). rewrite Hputs', Hputs, <- app_assoc, fmap_app.
    split; [done|]. rewrite Hhead, Hhead'.
    destruct (DryRun (plugin s)); [done | by rewrite fmap_app].
Qed.

(** X13: on a file system that stands still, a run that is not a dry run and
    returns [nil] has written exactly the matches that are files, once each
    and in the order of the matches, the directories and the paths that
    cannot be stat'ed left out. *)
Theorem Exec_writes_the_files s ms :
  static_stat W ->
  DryRun (plugin s) = false ->
  (matches W (Source (plugin s)) (Exclude (plugin s)) (started s)).2 = Ok ms ->
  (Exec W s).2 = Ok tt ->
  exists inputs,
    puts (trace (Exec W s).1) = puts (trace s) ++ inputs
    /\ header <$> inputs
       = request W (plugin s) <$> filter (fun m => is_file W m = true) ms.
Proof.
  intros Hstatic Hdry Hms. rewrite Exec_run.
  destruct (matches_state (Source (plugin s)) (Exclude (plugin s)) (started s))
    as [ps Hps].
  destruct (matches W (Source (plugin s)) (Exclude (plugin s)) (started s))
    as [s1 [ms'|e]]; [|done].
  cbn in Hms, Hps. inversion Hms; subst ms'. cbn [fst snd]. intros Hok.
  destruct (for_range_files (new_client (plugin s)) ms s1 Hstatic Hok)
    as (_ & inputs & Hputs & Hhead).
  assert (puts (trace s1) = puts (trace s) /\ plugin s1 = plugin s) as (Hp1 & Hpl).
  { subst s1. cbn. rewrite !puts_app, (proj2 (globs_quiet ps)). cbn.
    by rewrite !app_nil_r. }
  rewrite Hpl, Hdry in Hhead.
  exists inputs. unfold returned. cbn [trace].
  by rewrite !puts_app, (proj2 (closes_quiet _)), app_nil_r, Hputs, Hp1.
Qed.

(** X14: on a file system that stands still, a run that returns [nil], dry
    or not, logs the start line and then one "Uploading file" line for every
    match that is a file, in the order of the matches, and no other line: a
    dry run announces exactly what the run proper goes on to write. *)
Theorem Exec_announces_the_files s ms :
  static_stat W ->
  (matches W (Source (plugin s)) (Exclude (plugin s)) (started s)).2 = Ok ms ->
  (Exec W s).2 = Ok tt ->
  logs (trace (Exec W s).1)
  = logs (trace (started s))
      ++ (announce W (plugin s) <$> filter (fun m => is_file W m = true) ms).
Proof.
  intros Hstatic Hms. rewrite Exec_run.
  destruct (matches_state (Source (plugin s)) (Exclude (plugin s)) (started s))
    as [ps Hps].
  destruct (matches W (Source (plugin s)) (Exclude (plugin s)) (started s))
    as [s1 [ms'|e]]; [|done].
  cbn [fst] in Hps. cbn in Hms. inversion Hms; subst ms'. cbn [fst snd]. intros Hok.
  destruct (for_range_files (new_client (plugin s)) ms s1 Hstatic Hok) as (Hlogs & _).
  assert (logs (trace s1) = logs (trace (started s)) /\ plugin s1 = plugin s)
    as (Hl1 & Hpl).
  { subst s1. cbn [trace plugin]. rewrite logs_app.
    rewrite (proj1 (proj2 (proj2 (globs_silent ps)))). by rewrite app_nil_r. }
  unfold returned. cbn [trace].
  rewrite logs_app, (proj1 (proj2 (proj2 (closes_silent _)))), app_nil_r.
  by rewrite Hlogs, Hl1, Hpl.
Qed.

(** * More of [contentType] *)

Lemma substring_append_skip dir : forall k m s,
  String.substring (k + String.length dir) m (dir +:+ s) = String.substring k m s.
Proof.
  induction dir as [|c dir IH]; intros k m s; cbn [String.length String.append].
  - by rewrite Nat.add_0_r.
  - rewrite Nat.add_succ_r. cbn [String.substring]. apply IH.
Qed.

Lemma length_append_slash dir name :
  String.length (dir +:+ String "/" name) = String.length name + S (String.length dir).
Proof.
  induction dir as [|c dir IH].
  - change ("" +:+ String "/" name) with (String "/" name). cbn [String.length]. lia.
  - change (String c dir +:+ String "/" name) with (String c (dir +:+ String "/" name)).
    cbn [String.length]. lia.
Qed.

Lemma Ext_scan_under_directory dir name :
  (forall j c, String.get j name = Some c -> c <> "/"%char) ->
  forall j, j <= String.length name ->
    Ext_scan (dir +:+ String "/" name) (j + S (String.length dir)) = Ext_scan name j.
Proof.
  intros Hname. induction j as [|j IH]; intros Hj.
  - pose proof (String.append_correct2 dir (String "/" name) 0) as Hget.
    cbn [Nat.add String.get] in Hget. cbn [Nat.add Ext_scan]. by rewrite <- Hget.
  - pose proof (String.append_correct2 dir (String "/" name) (S j)) as Hget.
    cbn [String.get] in Hget.
    replace (S j + String.length dir) with (j + S (String.length dir)) in Hget by lia.
    cbn [Nat.add Ext_scan]. rewrite <- Hget.
    destruct (String.get j name) as [c|] eqn:Hc; [|done].
    pose proof (Hname _ _ Hc) as Hslash.
    destruct (Ascii.eqb c "/") eqn:Hc1; [by apply Ascii.eqb_eq in Hc1 |].
    destruct (Ascii.eqb c "."); [|apply IH; lia].
    replace (j + S (String.length dir)) with (S j + String.length dir) by lia.
    rewrite substring_append_skip, length_append_slash.
    cbn [String.substring]. f_equal. lia.
Qed.

(** X15: the content type of a path is that of its last element.  Putting a
    directory in front of a name with no separator in it changes nothing,
    whether or not the directory has dots in its own name. *)
Theorem contentType_ignores_directory dir name :
  (forall j c, String.get j name = Some c -> c <> "/"%char) ->
  contentType W (dir +:+ "/" +:+ name) = contentType W name.
Proof.
  intros Hname. unfold contentType, filepath_Ext.
  change (dir +:+ "/" +:+ name) with (dir +:+ String "/" name).
  rewrite length_append_slash, (Ext_scan_under_directory dir name Hname); [done | lia].
Qed.

(** * The two closes of a file *)

(** An iteration that returns no error has closed the file it opened. *)
Lemma upload_closes client match_ s :
  (upload W client match_ s).2 = Ok tt ->
  exists new,
    trace (upload W client match_ s).1 = trace s ++ new
    /\ deferred (upload W client match_ s).1
       = reverse (handles_from W (trace s) new) ++ deferred s
    /\ closes new = handles_from W (trace s) new.
Proof.
  upload_cases; intros [=]; rewrite <- ?app_assoc; cbn.
  all: eexists; (split; [reflexivity |]); cbn.
  all: repeat match goal with
              | H : os_Open W _ _ = _ |- _ => rewrite H
              end; split; reflexivity.
Qed.

Lemma for_range_closes client ms : forall s,
  (for_range ms (upload W client) s).2 = Ok tt ->
  exists new,
    trace (for_range ms (upload W client) s).1 = trace s ++ new
    /\ deferred (for_range ms (upload W client) s).1
       = reverse (handles_from W (trace s) new) ++ deferred s
    /\ closes new = handles_from W (trace s) new.
Proof.
  induction ms as [|m ms IH]; intros s.
  - intros _. exists []. cbn. by rewrite app_nil_r.
  - rewrite for_range_cons. pose proof (upload_closes client m s) as Hm.
    destruct (upload W client m s) as [s1 [[]|e]]; cbn in Hm; cbv iota beta; [|done].
    intros Hok. destruct (Hm eq_refl) as (new & Htr & Hdef & Hcl).
    destruct (IH s1 Hok) as (new' & Htr' & Hdef' & Hcl').
    exists (new ++ new').
    rewrite Htr', Hdef', Hdef, handles_from_app, reverse_app, closes_app, Hcl, Hcl'.
    rewrite Htr. by rewrite <- !app_assoc.
Qed.

(** X16: in a run that returns [nil] every file is closed twice: by the
    explicit close at the end of its iteration, in the order the files were
    opened, and again by the deferred closes on return, in the reverse order. *)
Theorem Exec_closes_twice s :
  (Exec W s).2 = Ok tt ->
  exists new,
    trace (Exec_body W s).1 = trace s ++ new
    /\ closes (trace (Exec W s).1)
       = closes (trace s) ++ handles_from W (trace s) new
           ++ reverse (handles_from W (trace s) new) ++ deferred s.
Proof.
  intros Hok.
  assert ((Exec_body W s).2 = Ok tt) as Hbody.
  { revert Hok. unfold Exec, with_defers. by destruct (Exec_body W s). }
  assert (trace (Exec W s).1
          = trace (Exec_body W s).1 ++ (EvClose <$> deferred (Exec_body W s).1)) as ->.
  { unfold Exec, with_defers. by destruct (Exec_body W s). }
  revert Hbody. rewrite Exec_body_run.
  destruct (matches_state (Source (plugin s)) (Exclude (plugin s)) (started s))
    as [ps Hps].
  destruct (matches W (Source (plugin s)) (Exclude (plugin s)) (started s))
    as [s1 [ms|err]]; [|done].
  cbn in Hps. intros Hloop.
  destruct (for_range_closes _ _ _ Hloop) as (new & Htr & Hdef & Hcl).
  subst s1. cbn [trace deferred] in Htr, Hdef, Hcl.
  eexists (_ :: (EvGlob <$> ps) ++ new). rewrite Htr, Hdef. split.
  - rewrite <- !app_assoc. reflexivity.
  - cbn [handles_from]. rewrite handles_from_app, handles_from_globs. cbn [app].
    rewrite !closes_app, (proj2 (proj2 (proj2 (closes_silent _)))).
    rewrite (proj2 (proj2 (proj2 (globs_silent ps)))), Hcl. cbn.
    by rewrite !app_nil_r, <- !app_assoc.
Qed.

End Properties.

(** * The program at work in the small world *)

Example Ext_last_dot : filepath_Ext "a/file.tar.gz" = ".gz".
Proof. reflexivity. Qed.

Example Ext_stops_at_separator : filepath_Ext "a.b/noext" = "".
Proof. reflexivity. Qed.

Example contentType_known : contentType Fixture.world "dist/z.css" = "text/css; charset=utf-8".
Proof. reflexivity. Qed.

Example contentType_unknown :
  contentType Fixture.world "file.unknownext" = "application/octet-stream".
Proof. reflexivity. Qed.

Example matches_in_order :
  (matches Fixture.world "dist/*" ["dist/*.map"] (init Fixture.config)).2
  = Ok ["dist/app.js"; "dist/gone"; "dist/img"; "dist/locked"; "dist/z.css"].
Proof. vm_compute. reflexivity. Qed.

Example bad_exclude_pattern :
  (matches Fixture.world "dist/*" ["dist/["] (init Fixture.config)).2
  = Err Fixture.bad_pattern.
Proof. vm_compute. reflexivity. Qed.

Example puts_of_the_run :
  s3.Key <$> puts (trace (Exec Fixture.world (init Fixture.config)).1)
  = ["/bundle/dist/app.js"].
Proof. vm_compute. reflexivity. Qed.

Lemma matches_filters_excluded_witness :
  (matches Fixture.world "dist/*" ["dist/*.map"] (init Fixture.config)).2
  = Ok (filter (fun x => x ∉ (list_to_set ["dist/app.js.map"] ∪ ∅ : gset string))
          ["dist/app.js"; "dist/app.js.map"; "dist/gone"; "dist/img"; "dist/locked";
           "dist/z.css"]).
Proof.
  apply (matches_filters_excluded Fixture.world "dist/*" ["dist/*.map"]
           (init Fixture.config)); [discriminate | reflexivity | reflexivity].
Defined.

Lemma compression_property_witness :
  exists input,
    puts (trace (upload Fixture.world (new_client Fixture.gzipped) "dist/app.js"
                   (Fixture.at_loop Fixture.gzipped)).1)
      = puts (trace (Fixture.at_loop Fixture.gzipped)) ++ [input]
    /\ s3.Body input = Some (BytesReader (Fixture.gzip [x61; x62; x63]%byte))
    /\ s3.ContentEncoding input = Some "gzip".
Proof.
  refine (compression_property Fixture.world (init Fixture.gzipped) "dist/app.js"
            (Fixture.at_loop Fixture.gzipped) {| Fd := 3; Name := "dist/app.js" |} _ _ _).
  - exists (Fixture.at_loop Fixture.gzipped), [],
      ["dist/gone"; "dist/img"; "dist/locked"; "dist/z.css"].
    split; vm_compute; reflexivity.
  - exists {| IsDir := false |}. repeat split; vm_compute; reflexivity.
  - vm_compute. reflexivity.
Defined.

Lemma dry_run_opens_and_writes_nothing_witness :
  DryRun (plugin (init Fixture.dry)) = true
  /\ opens (trace (Exec Fixture.world (init Fixture.dry)).1) = []
  /\ puts (trace (Exec Fixture.world (init Fixture.dry)).1) = [].
Proof.
  split; [reflexivity |].
  destruct (dry_run_opens_and_writes_nothing Fixture.world (init Fixture.dry) eq_refl)
    as (Hopens & Hputs & _).
  split; assumption.
Defined.

Lemma first_failure_ends_the_run_witness :
  (Exec Fixture.world (init Fixture.config)).2 = Err Fixture.permission_denied.
Proof.
  refine (proj1 (first_failure_ends_the_run Fixture.world (init Fixture.config)
                   (Fixture.at_loop Fixture.config)
                   ["dist/app.js"; "dist/gone"; "dist/img"] "dist/locked" ["dist/z.css"]
                   (Fixture.after Fixture.config ["dist/app.js"; "dist/gone"; "dist/img"])
                   Fixture.permission_denied _ _ _)).
  - vm_compute. reflexivity.
  - vm_compute. reflexivity.
  - apply open_fails.
    + exists {| IsDir := false |}. repeat split; vm_compute; reflexivity.
    + vm_compute. reflexivity.
Defined.

Lemma contentType_total_witness :
  contentType Fixture.world "noext" = "application/octet-stream".
Proof.
  apply (proj2 (proj2 (contentType_total Fixture.world "noext"))); reflexivity.
Defined.

Lemma stat_failure_is_skipped_witness :
  upload Fixture.world (new_client Fixture.config) "dist/gone" (init Fixture.config)
  = (record (EvStat "dist/gone") (init Fixture.config), Ok tt).
Proof.
  apply (stat_failure_is_skipped Fixture.world (new_client Fixture.config) "dist/gone"
           ["dist/img"] (init Fixture.config) Fixture.no_such_file).
  reflexivity.
Defined.

(** * More of the program at work *)

Example exclude_both_ways :
  (matches Fixture.world "dist/*" ["dist/*.css"; "dist/*.map"] (init Fixture.config)).2
  = Ok ["dist/app.js"; "dist/gone"; "dist/img"; "dist/locked"].
Proof. vm_compute. reflexivity. Qed.

Example styles_go_through :
  (Exec Fixture.world (init Scenario.styles)).2 = Ok tt
  /\ s3.Key <$> puts (trace (Exec Fixture.world (init Scenario.styles)).1)
     = ["/dist/torn.css"; "/dist/z.css"].
Proof. split; vm_compute; reflexivity. Qed.

Lemma matches_include_error_witness :
  matches Fixture.world "dist/[" ["dist/*.map"] (init Fixture.config)
  = (record (EvGlob "dist/[") (init Fixture.config), Err Fixture.bad_pattern).
Proof.
  apply (matches_include_error Fixture.world "dist/[" ["dist/*.map"]
           (init Fixture.config) Fixture.bad_pattern).
  reflexivity.
Defined.

Lemma matches_exclude_error_witness :
  (matches Fixture.world "dist/*" (["dist/*.map"] ++ "dist/[" :: ["dist/*.css"])
     (init Fixture.config)).2
  = Err Fixture.bad_pattern.
Proof.
  rewrite (matches_exclude_error Fixture.world "dist/*" ["dist/*.map"] "dist/["
             ["dist/*.css"] (init Fixture.config)
             ["dist/app.js"; "dist/app.js.map"; "dist/gone"; "dist/img"; "dist/locked";
              "dist/z.css"]
             (list_to_set ["dist/app.js.map"] ∪ ∅) Fixture.bad_pattern);
    reflexivity.
Defined.

Lemma matches_sublist_witness :
  exists I,
    zglob_Glob Fixture.world (trace (init Fixture.config)) "dist/*" = Ok I
    /\ ["dist/app.js"; "dist/gone"; "dist/img"; "dist/locked"; "dist/z.css"]
       `sublist_of` I.
Proof.
  apply (matches_sublist Fixture.world "dist/*" ["dist/*.map"] (init Fixture.config)).
  vm_compute. reflexivity.
Defined.

Lemma exclude_order_irrelevant_witness :
  (matches Fixture.world "dist/*" ["dist/*.map"; "dist/*.css"] (init Fixture.config)).2
  = Ok ["dist/app.js"; "dist/gone"; "dist/img"; "dist/locked"].
Proof.
  apply (exclude_order_irrelevant Fixture.world "dist/*"
           ["dist/*.css"; "dist/*.map"] ["dist/*.map"; "dist/*.css"]
           (init Fixture.config)).
  - intros tr tr' pattern. reflexivity.
  - apply perm_swap.
  - vm_compute. reflexivity.
Defined.

Lemma Exec_glob_failure_witness :
  (Exec Fixture.world (init Scenario.broken)).2 = Err Fixture.bad_pattern
  /\ puts (trace (Exec Fixture.world (init Scenario.broken)).1) = [].
Proof.
  destruct (Exec_glob_failure Fixture.world (init Scenario.broken) Fixture.bad_pattern)
    as (Herr & _ & _ & _ & Hputs).
  - vm_compute. reflexivity.
  - split; assumption.
Defined.

Lemma Exec_error_provenance_witness :
  exists tr ev,
    raised Fixture.world tr Fixture.permission_denied ev
    /\ trace (init Fixture.config) `prefix_of` tr
    /\ tr ++ [ev] `prefix_of` trace (Exec Fixture.world (init Fixture.config)).1.
Proof.
  apply (Exec_error_provenance Fixture.world (init Fixture.config)
           Fixture.permission_denied).
  vm_compute. reflexivity.
Defined.

Lemma directory_is_skipped_witness :
  upload Fixture.world (new_client Fixture.config) "dist/img" (init Fixture.config)
  = (record (EvStat "dist/img") (init Fixture.config), Ok tt).
Proof.
  apply (directory_is_skipped Fixture.world (new_client Fixture.config) "dist/img"
           ["dist/locked"] (init Fixture.config) {| IsDir := true |});
    reflexivity.
Defined.

Lemma Exec_stats_in_order_witness :
  stats (trace (Exec Fixture.world (init Scenario.styles)).1)
  = ["dist/torn.css"; "dist/z.css"].
Proof.
  destruct (Exec_stats_in_order Fixture.world (init Scenario.styles)
              ["dist/torn.css"; "dist/z.css"]) as (k & _ & Hall).
  - vm_compute. reflexivity.
  - apply Hall. vm_compute. reflexivity.
Defined.

Lemma Exec_requests_follow_matches_witness :
  exists l inputs,
    l `sublist_of` ["dist/torn.css"; "dist/z.css"]
    /\ puts (trace (Exec Fixture.world (init Scenario.styles)).1) = inputs
    /\ header <$> inputs = request Fixture.world Scenario.styles <$> l.
Proof.
  destruct (Exec_requests_follow_matches Fixture.world (init Scenario.styles)
              ["dist/torn.css"; "dist/z.css"]) as (l & inputs & Hsub & Hputs & Hhead & _).
  - vm_compute. reflexivity.
  - exists l, inputs. repeat split; assumption.
Defined.

Lemma Exec_writes_the_files_witness :
  exists inputs,
    puts (trace (Exec Fixture.world (init Scenario.styles)).1) = inputs
    /\ header <$> inputs
       = request Fixture.world Scenario.styles
           <$> filter (fun m => is_file Fixture.world m = true)
                 ["dist/torn.css"; "dist/z.css"].
Proof.
  apply (Exec_writes_the_files Fixture.world (init Scenario.styles)
           ["dist/torn.css"; "dist/z.css"]).
  - intros tr tr' path. reflexivity.
  - reflexivity.
  - vm_compute. reflexivity.
  - vm_compute. reflexivity.
Defined.

Lemma Exec_announces_the_files_witness :
  logs (trace (Exec Fixture.world (init Scenario.styles_dry)).1)
  = logs (trace (started (init Scenario.styles_dry)))
      ++ (announce Fixture.world Scenario.styles_dry
            <$> filter (fun m => is_file Fixture.world m = true)
                  ["dist/app.js"; "dist/app.js.map"; "dist/gone"; "dist/img";
                   "dist/locked"; "dist/z.css"]).
Proof.
  apply (Exec_announces_the_files Fixture.world (init Scenario.styles_dry)).
  - intros tr tr' path. reflexivity.
  - vm_compute. reflexivity.
  - vm_compute. reflexivity.
Defined.

Lemma contentType_ignores_directory_witness :
  contentType Fixture.world ("v1.2/dist" +:+ "/" +:+ "app.js")
  = contentType Fixture.world "app.js".
Proof.
  apply (contentType_ignores_directory Fixture.world "v1.2/dist" "app.js").
  intros j c.
  do 6 (destruct j as [|j]; [cbn; intros [= <-]; discriminate |]).
  cbn. discriminate.
Defined.

Lemma Exec_closes_twice_witness :
  exists new,
    trace (Exec_body Fixture.world (init Scenario.styles)).1
      = trace (init Scenario.styles) ++ new
    /\ closes (trace (Exec Fixture.world (init Scenario.styles)).1)
       = closes (trace (init Scenario.styles))
           ++ handles_from Fixture.world (trace (init Scenario.styles)) new
           ++ reverse (handles_from Fixture.world (trace (init Scenario.styles)) new)
           ++ deferred (init Scenario.styles).
Proof.
  apply (Exec_closes_twice Fixture.world (init Scenario.styles)).
  vm_compute. reflexivity.
Defined.
